(** * logrus-file-hook: a shallow embedding of [lfshook.go]

    The hook routes log entries either to [io.Writer]s or to files that are
    rolled over once their tracked length exceeds [FdMaxSize], keeping a chain
    of numbered backups [path.1], [path.2], ...

    The Go code talks to the operating system through [os.Stat],
    [os.OpenFile], [os.Rename], [os.RemoveAll], [os.MkdirAll] and the
    [Write] and [Close] methods of [os.File].  These are modelled by an
    explicit [World] that is threaded through every function: a flat
    directory of regular files (name -> inode -> bytes), the targets of the
    [io.Writer]s, the trace of calls made so far, and an oracle that decides
    which call fails.

    What the model leaves out:
    - directories: [os.MkdirAll] only shows in the trace, [os.RemoveAll]
      removes one name, and a call that a missing or read-only directory
      would refuse is a call that the oracle lets fail;
    - the mutexes: the embedding is sequential;
    - nil writers inside a [WriterMap], and changes that the caller makes to
      a map after handing it to [NewLfsHook];
    - the width of [int]: it is taken to be 64 bits, loop counters are
      assumed not to reach its upper end, and a file is shorter than [2^63]
      bytes.  The addition to the tracked length is an [int64] addition. *)

From Stdlib Require Import ZArith Lia.
From stdpp Require Import base numbers option list strings pretty gmap.

Local Open Scope Z_scope.

Abbreviation bytes := (list Byte.byte).

(** ** Go values *)

(** A Go [error] value.  [os.IsNotExist] recognises [ErrNotExist]. *)
Inductive error :=
| ErrNotExist | ErrPermission | ErrInvalid | ErrShortWrite | ErrIO | ErrFormat.

Definition IsNotExist (err : option error) : bool :=
  match err with Some ErrNotExist => true | _ => false end.

(** A Go pair [(value, error)] of which exactly one side is meaningful. *)
Inductive result (A : Type) :=
| Ok (a : A)
| Err (e : error).
Arguments Ok {A} a.
Arguments Err {A} e.

Definition err_of {A} (r : result A) : option error :=
  match r with Ok _ => None | Err e => Some e end.

(** What a call of a Go function does: it returns, it panics, or the loop
    inside it is still running when the fuel of the model is used up. *)
Inductive outcome (A : Type) :=
| Returned (a : A)
| Panicked
| NoFuel.
Arguments Returned {A} a.
Arguments Panicked {A}.
Arguments NoFuel {A}.

(** [int64] arithmetic wraps around. *)
Definition int64 (z : Z) : Z := (z + 2 ^ 63) mod 2 ^ 64 - 2 ^ 63.

(** ** The operating system *)

Inductive call :=
| Stat (name : string)
| OpenFile (name : string)      (* flags O_CREATE|O_APPEND|O_RDWR, mode 0664 *)
| Close (fd : nat)
| Rename (oldpath newpath : string)
| RemoveAll (path : string)
| MkdirAllDir (path : string)   (* os.MkdirAll(filepath.Dir(path), 0755) *)
| FileWrite (fd : nat) (b : bytes)
| WriterWrite (wr : nat) (b : bytes)
| Println (e : error).

(** One entry of the trace: the call, its error, and its numeric result
    (the size for [Stat], the byte count for the writes, 0 otherwise). *)
Record event := Ev { ev_call : call; ev_err : option error; ev_n : Z }.

Record World := {
  names : gmap string nat;          (* directory entries: name -> inode *)
  inodes : list bytes;              (* inode -> content; never reused *)
  sinks : gmap nat bytes;           (* what each io.Writer has received *)
  made : gset string;               (* paths whose parent directories
                                       os.MkdirAll has created *)
  trace : list event;               (* oldest call first *)
  faults : nat → call → option error; (* the call made at this tick fails *)
  short : nat → nat                 (* bytes a failing write still appends *)
}.

Definition tick (w : World) : nat := length (trace w).

Definition extend (evs : list event) (w : World) : World :=
  {| names := names w; inodes := inodes w; sinks := sinks w; made := made w;
     trace := trace w ++ evs; faults := faults w; short := short w |}.

Definition record (c : call) (e : option error) (n : Z) (w : World) : World :=
  extend [Ev c e n] w.

Definition set_names (ns : gmap string nat) (w : World) : World :=
  {| names := ns; inodes := inodes w; sinks := sinks w; made := made w;
     trace := trace w; faults := faults w; short := short w |}.

Definition set_inodes (ins : list bytes) (w : World) : World :=
  {| names := names w; inodes := ins; sinks := sinks w; made := made w;
     trace := trace w; faults := faults w; short := short w |}.

Definition set_sinks (ss : gmap nat bytes) (w : World) : World :=
  {| names := names w; inodes := inodes w; sinks := ss; made := made w;
     trace := trace w; faults := faults w; short := short w |}.

Definition set_made (ds : gset string) (w : World) : World :=
  {| names := names w; inodes := inodes w; sinks := sinks w; made := ds;
     trace := trace w; faults := faults w; short := short w |}.

Definition fsize (w : World) (i : nat) : Z :=
  Z.of_nat (length (default [] (inodes w !! i))).

(** The content of the file called [name], if there is one. *)
Definition content (w : World) (name : string) : option bytes :=
  i ← names w !! name; inodes w !! i.

Definition os_Stat (name : string) (w : World) : result Z * World :=
  match faults w (tick w) (Stat name) with
  | Some e => (Err e, record (Stat name) (Some e) 0 w)
  | None =>
    match names w !! name with
    | Some i => (Ok (fsize w i), record (Stat name) None (fsize w i) w)
    | None => (Err ErrNotExist, record (Stat name) (Some ErrNotExist) 0 w)
    end
  end.

(** Opening for append creates the file when the name is free. *)
Definition os_OpenFile (name : string) (w : World) : result nat * World :=
  match faults w (tick w) (OpenFile name) with
  | Some e => (Err e, record (OpenFile name) (Some e) 0 w)
  | None =>
    match names w !! name with
    | Some i => (Ok i, record (OpenFile name) None 0 w)
    | None =>
      let i := length (inodes w) in
      (Ok i, record (OpenFile name) None 0
               (set_names (<[name := i]> (names w))
                  (set_inodes (inodes w ++ [[]]) w)))
    end
  end.

Definition os_Close (fd : nat) (w : World) : option error * World :=
  let e := faults w (tick w) (Close fd) in (e, record (Close fd) e 0 w).

(** [rename(2)]: the new name replaces whatever it named before. *)
Definition os_Rename (oldpath newpath : string) (w : World)
  : option error * World :=
  match faults w (tick w) (Rename oldpath newpath) with
  | Some e => (Some e, record (Rename oldpath newpath) (Some e) 0 w)
  | None =>
    match names w !! oldpath with
    | Some i =>
      (None, record (Rename oldpath newpath) None 0
               (set_names (<[newpath := i]> (delete oldpath (names w))) w))
    | None =>
      (Some ErrNotExist,
       record (Rename oldpath newpath) (Some ErrNotExist) 0 w)
    end
  end.

(** Removing a name that is absent is not an error. *)
Definition os_RemoveAll (path : string) (w : World) : option error * World :=
  match faults w (tick w) (RemoveAll path) with
  | Some e => (Some e, record (RemoveAll path) (Some e) 0 w)
  | None =>
    (None, record (RemoveAll path) None 0
             (set_names (delete path (names w)) w))
  end.

(** [os.MkdirAll(filepath.Dir(path), 0755)]: the directory of [path] and
    its missing parents are created.  The model keeps no tree of
    directories; it remembers for which paths this has been done. *)
Definition os_MkdirAllDir (path : string) (w : World) : option error * World :=
  match faults w (tick w) (MkdirAllDir path) with
  | Some e => (Some e, record (MkdirAllDir path) (Some e) 0 w)
  | None =>
    (None, record (MkdirAllDir path) None 0
             (set_made ({[path]} ∪ made w) w))
  end.

Definition append_to (b : bytes) (old : bytes) : bytes := old ++ b.

(** [Write] of an [os.File]: the count of bytes written and the error.  A
    failing write may still have appended a prefix of the message.  Writing
    through a nil file is [ErrInvalid]. *)
Definition os_FileWrite (fd : option nat) (b : bytes) (w : World)
  : (Z * option error) * World :=
  match fd with
  | None => ((0, Some ErrInvalid), w)
  | Some i =>
    match faults w (tick w) (FileWrite i b) with
    | Some e =>
      let part := take (short w (tick w)) b in
      let n := Z.of_nat (length part) in
      ((n, Some e),
       record (FileWrite i b) (Some e) n
         (set_inodes (alter (append_to part) i (inodes w)) w))
    | None =>
      let n := Z.of_nat (length b) in
      ((n, None),
       record (FileWrite i b) None n
         (set_inodes (alter (append_to b) i (inodes w)) w))
    end
  end.

(** [io.Writer.Write] of the writer number [wr]. *)
Definition os_WriterWrite (wr : nat) (b : bytes) (w : World)
  : (Z * option error) * World :=
  match faults w (tick w) (WriterWrite wr b) with
  | Some e =>
    let part := take (short w (tick w)) b in
    let n := Z.of_nat (length part) in
    ((n, Some e),
     record (WriterWrite wr b) (Some e) n
       (set_sinks (<[wr := default [] (sinks w !! wr) ++ part]> (sinks w)) w))
  | None =>
    let n := Z.of_nat (length b) in
    ((n, None),
     record (WriterWrite wr b) None n
       (set_sinks (<[wr := default [] (sinks w !! wr) ++ b]> (sinks w)) w))
  end.

(** [log.Println("failed to generate string for entry:", err)] *)
Definition log_Println (e : error) (w : World) : World :=
  record (Println e) None 0 w.

(** ** logrus *)

(** [logrus.Level] is a [uint32]. *)
Abbreviation Level := N (only parsing).

Definition PanicLevel : Level := 0%N.
Definition FatalLevel : Level := 1%N.
Definition ErrorLevel : Level := 2%N.
Definition WarnLevel : Level := 3%N.
Definition InfoLevel : Level := 4%N.
Definition DebugLevel : Level := 5%N.
Definition TraceLevel : Level := 6%N.

Definition AllLevels : list Level :=
  [PanicLevel; FatalLevel; ErrorLevel; WarnLevel; InfoLevel; DebugLevel;
   TraceLevel].

Record Entry := { EntryLevel : Level; Message : string }.

(** A non-nil [logrus.Formatter] value.  [isText] tells a
    [*logrus.TextFormatter] from the others; its rendering depends on its
    [DisableColors] field.  [isNil] says that the value is a nil pointer of
    its type (an interface holding a typed nil is not nil); reading or
    writing a field through it panics. *)
Record Formatter := {
  isText : bool;
  isNil : bool;
  DisableColors : bool;
  render : bool → Entry → result bytes
}.

Definition Format (f : Formatter) (entry : Entry) : result bytes :=
  render f (DisableColors f) entry.

(** ** The hook *)

Record lfsFile := {
  fd : option nat;     (* nil, or the open file *)
  path : string;
  ln : Z               (* int64 *)
}.

Record LfsHook := {
  paths : option (gmap N string);     (* None is the nil map *)
  writers : option (gmap N nat);
  levels : list N;
  formatter : Formatter;
  defaultPath : string;
  defaultWriter : option nat;         (* None is the nil writer *)
  hasDefaultPath : bool;
  hasDefaultWriter : bool;
  FdMaxLen : Z;                       (* int *)
  FdMaxSize : Z;                      (* int64 *)
  fls : gmap N lfsFile
}.

(** The [output interface{}] argument of [NewLfsHook]. *)
Inductive Output :=
| OutString (s : string)
| OutWriter (wr : nat)
| OutPathMap (m : option (gmap N string))
| OutWriterMap (m : option (gmap N nat))
| OutOther.

Definition set_fls (m : gmap N lfsFile) (h : LfsHook) : LfsHook :=
  {| paths := paths h; writers := writers h; levels := levels h;
     formatter := formatter h; defaultPath := defaultPath h;
     defaultWriter := defaultWriter h; hasDefaultPath := hasDefaultPath h;
     hasDefaultWriter := hasDefaultWriter h; FdMaxLen := FdMaxLen h;
     FdMaxSize := FdMaxSize h; fls := m |}.

Definition set_limits (maxlen maxsize : Z) (h : LfsHook) : LfsHook :=
  {| paths := paths h; writers := writers h; levels := levels h;
     formatter := formatter h; defaultPath := defaultPath h;
     defaultWriter := defaultWriter h; hasDefaultPath := hasDefaultPath h;
     hasDefaultWriter := hasDefaultWriter h; FdMaxLen := maxlen;
     FdMaxSize := maxsize; fls := fls h |}.

Definition set_maps (ps : option (gmap N string)) (ws : option (gmap N nat))
    (ls : list N) (h : LfsHook) : LfsHook :=
  {| paths := ps; writers := ws; levels := ls;
     formatter := formatter h; defaultPath := defaultPath h;
     defaultWriter := defaultWriter h; hasDefaultPath := hasDefaultPath h;
     hasDefaultWriter := hasDefaultWriter h; FdMaxLen := FdMaxLen h;
     FdMaxSize := FdMaxSize h; fls := fls h |}.

Definition set_formatter (f : Formatter) (hook : LfsHook) : LfsHook :=
  {| paths := paths hook; writers := writers hook; levels := levels hook;
     formatter := f; defaultPath := defaultPath hook;
     defaultWriter := defaultWriter hook;
     hasDefaultPath := hasDefaultPath hook;
     hasDefaultWriter := hasDefaultWriter hook; FdMaxLen := FdMaxLen hook;
     FdMaxSize := FdMaxSize hook; fls := fls hook |}.

(** [SetFormatter]: a nil formatter ([None]) is replaced by the default
    one; a text formatter gets its colours switched off, which panics when
    it is a nil pointer; any other formatter is stored as it is. *)
Definition SetFormatter (defaultFormatter : Formatter) (hook : LfsHook)
    (formatter : option Formatter) : outcome LfsHook :=
  match formatter with
  | None => Returned (set_formatter defaultFormatter hook)
  | Some f =>
    if isText f then
      if isNil f then Panicked   (* textFormatter.DisableColors = true *)
      else
        Returned
          (set_formatter
             {| isText := true; isNil := false; DisableColors := true;
                render := render f |} hook)
    else Returned (set_formatter f hook)
  end.

Definition SetDefaultPath (hook : LfsHook) (defaultPath' : string) : LfsHook :=
  {| paths := paths hook; writers := writers hook; levels := levels hook;
     formatter := formatter hook; defaultPath := defaultPath';
     defaultWriter := defaultWriter hook; hasDefaultPath := true;
     hasDefaultWriter := hasDefaultWriter hook; FdMaxLen := FdMaxLen hook;
     FdMaxSize := FdMaxSize hook; fls := fls hook |}.

Definition SetDefaultWriter (hook : LfsHook) (defaultWriter' : nat) : LfsHook :=
  {| paths := paths hook; writers := writers hook; levels := levels hook;
     formatter := formatter hook; defaultPath := defaultPath hook;
     defaultWriter := Some defaultWriter';
     hasDefaultPath := hasDefaultPath hook;
     hasDefaultWriter := true; FdMaxLen := FdMaxLen hook;
     FdMaxSize := FdMaxSize hook; fls := fls hook |}.

(** The keys of a Go map, in the order its [range] happens to visit them. *)
Definition keys {V} (m : option (gmap N V)) : list N :=
  match m with Some m => (map_to_list m).*1 | None => [] end.

(** [NewLfsHook(output, formatter, maxsz...)].  [defaultFormatter] is the
    package variable of that name. *)
Definition NewLfsHook (defaultFormatter : Formatter) (output : Output)
    (formatter : option Formatter) (maxsz : list Z) : outcome LfsHook :=
  let hook :=
    {| paths := None; writers := None; levels := [];
       formatter := defaultFormatter; defaultPath := "";
       defaultWriter := None; hasDefaultPath := false;
       hasDefaultWriter := false; FdMaxLen := 10;
       FdMaxSize := 1024 * 1024 * 10; fls := ∅ |} in
  let hook :=
    match maxsz !! 0%nat with
    | Some m => if 0 <? m then set_limits (FdMaxLen hook) m hook else hook
    | None => hook
    end in
  let hook :=
    match maxsz !! 1%nat with
    | Some m => if 0 <? m then set_limits m (FdMaxSize hook) hook else hook
    | None => hook
    end in
  match SetFormatter defaultFormatter hook formatter with
  | Returned hook =>
    match output with
    | OutString s => Returned (SetDefaultPath hook s)
    | OutWriter wr => Returned (SetDefaultWriter hook wr)
    | OutPathMap m =>
      Returned (set_maps m (writers hook) (levels hook ++ keys m) hook)
    | OutWriterMap m =>
      Returned (set_maps (paths hook) m (levels hook ++ keys m) hook)
    | OutOther => Panicked
    end
  | Panicked => Panicked
  | NoFuel => NoFuel
  end.

(** [hook.paths[level]] and [hook.writers[level]]: a nil map has no entry. *)
Definition map_get {V} (m : option (gmap N V)) (level : N) : option V :=
  m' ← m; m' !! level.

(** [ioWrite]: write a log line to an [io.Writer]. *)
Definition ioWrite (hook : LfsHook) (entry : Entry) (w : World)
  : outcome (option error * World) :=
  let writer :=
    match map_get (writers hook) (EntryLevel entry) with
    | Some wr => Some (Some wr)
    | None =>
      if hasDefaultWriter hook then Some (defaultWriter hook) else None
    end in
  match writer with
  | None => Returned (None, w)
  | Some writer =>
    match Format (formatter hook) entry with
    | Err err => Returned (Some err, log_Println err w)
    | Ok msg =>
      match writer with
      | None => Panicked            (* Write on a nil io.Writer *)
      | Some wr =>
        let '((_, err), w) := os_WriterWrite wr msg w in
        Returned (err, w)
      end
    end
  end.

(** [fmt.Sprintf("%s.%d", path, i)] *)
Definition bakName (path : string) (i : Z) : string :=
  path +:+ "." +:+ pretty i.

(** [fileBakLen]: the loop runs for [i = 1 .. FdMaxLen] and stops at the
    first name that does not exist; [k] bounds the iterations left. *)
Fixpoint fileBakLen_loop (k : nat) (c : LfsHook) (path : string) (i ln : Z)
    (w : World) : Z * World :=
  match k with
  | O => (ln, w)
  | S k =>
    if i <=? FdMaxLen c then
      let '(r, w) := os_Stat (bakName path i) w in
      if negb (IsNotExist (err_of r))
      then fileBakLen_loop k c path (i + 1) (ln + 1) w
      else (ln, w)
    else (ln, w)
  end.

Definition fileBakLen (c : LfsHook) (path : string) (w : World) : Z * World :=
  fileBakLen_loop (Z.to_nat (FdMaxLen c)) c path 1 0 w.

(** [fileBakMove]: drop [path.1], then move [path.(i+1)] to [path.i] for
    [i = 1 .. FdMaxLen-1]. *)
Fixpoint fileBakMove_loop (k : nat) (c : LfsHook) (path : string) (i : Z)
    (w : World) : World :=
  match k with
  | O => w
  | S k =>
    if i <? FdMaxLen c then
      let '(_, w) := os_Rename (bakName path (i + 1)) (bakName path i) w in
      fileBakMove_loop k c path (i + 1) w
    else w
  end.

Definition fileBakMove (c : LfsHook) (path : string) (w : World) : World :=
  let '(_, w) := os_RemoveAll (bakName path 1) w in
  fileBakMove_loop (Z.to_nat (FdMaxLen c - 1)) c path 1 w.

Definition set_fd (d : option nat) (fe : lfsFile) : lfsFile :=
  {| fd := d; path := path fe; ln := ln fe |}.

Definition set_ln (n : Z) (fe : lfsFile) : lfsFile :=
  {| fd := fd fe; path := path fe; ln := n |}.

(** One turn of the [for] loop of [fileCheck]. *)
Inductive turn :=
| Again (fe : lfsFile) (w : World)               (* next iteration *)
| Break (fe : lfsFile) (w : World)               (* break; return nil *)
| Return (err : error) (fe : lfsFile) (w : World). (* return err *)

Definition fileCheck_body (c : LfsHook) (fe : lfsFile) (w : World) : turn :=
  match fd fe with
  | None =>
    let fe := set_ln 0 fe in
    let '(stat, w) := os_Stat (path fe) w in
    let fe := match stat with Ok size => set_ln size fe | Err _ => fe end in
    let '(fl, w) := os_OpenFile (path fe) w in
    match fl with
    | Err err => Return err fe w
    | Ok fl => Again (set_fd (Some fl) fe) w
    end
  | Some d =>
    if FdMaxSize c <? ln fe then
      let '(_, w) := os_Close d w in
      let fe := set_fd None fe in
      let '(ln, w) := fileBakLen c (path fe) w in
      if FdMaxLen c <=? ln then
        let w := fileBakMove c (path fe) w in
        let '(_, w) := os_Rename (path fe) (bakName (path fe) ln) w in
        Again fe w
      else
        let '(_, w) := os_Rename (path fe) (bakName (path fe) (ln + 1)) w in
        Again fe w
    else Break fe w
  end.

(** [fileCheck]: [None] when the loop has not left after [fuel] turns. *)
Fixpoint fileCheck (fuel : nat) (c : LfsHook) (fe : lfsFile) (w : World)
  : option (option error * lfsFile * World) :=
  match fuel with
  | O => None
  | S fuel =>
    match fileCheck_body c fe w with
    | Again fe w => fileCheck fuel c fe w
    | Break fe w => Some (None, fe, w)
    | Return err fe w => Some (Some err, fe, w)
    end
  end.

(** [fileWrite]: write a log line directly to a file.  The handle is a
    pointer stored in [hook.fls]; its updates are written back there. *)
Definition fileWrite (fuel : nat) (hook : LfsHook) (entry : Entry) (w : World)
  : outcome (option error * LfsHook * World) :=
  let level := EntryLevel entry in
  let found :=
    match fls hook !! level with
    | Some fe => Some (fe, w)
    | None =>
      let path :=
        match map_get (paths hook) level with
        | Some path => Some path
        | None => if hasDefaultPath hook then Some (defaultPath hook) else None
        end in
      match path with
      | None => None
      | Some path =>
        let '(_, w) := os_MkdirAllDir path w in
        Some ({| fd := None; path := path; ln := 0 |}, w)
      end
    end in
  match found with
  | None => Returned (None, hook, w)
  | Some (fe, w) =>
    match fileCheck fuel hook fe w with
    | None => NoFuel
    | Some (Some err, fe, w) =>
      Returned (Some err, set_fls (<[level := fe]> (fls hook)) hook, w)
    | Some (None, fe, w) =>
      match Format (formatter hook) entry with
      | Err err =>
        Returned (Some err, set_fls (<[level := fe]> (fls hook)) hook,
                  log_Println err w)
      | Ok msg =>
        let '((n, _), w) := os_FileWrite (fd fe) msg w in
        let fe := set_ln (int64 (ln fe + n)) fe in
        Returned (None, set_fls (<[level := fe]> (fls hook)) hook, w)
      end
    end
  end.

(** [Fire]: writers win over paths. *)
Definition Fire (fuel : nat) (hook : LfsHook) (entry : Entry) (w : World)
  : outcome (option error * LfsHook * World) :=
  if bool_decide (is_Some (writers hook)) || hasDefaultWriter hook then
    match ioWrite hook entry w with
    | Returned (err, w) => Returned (err, hook, w)
    | Panicked => Panicked
    | NoFuel => NoFuel
    end
  else if bool_decide (is_Some (paths hook)) || hasDefaultPath hook then
    fileWrite fuel hook entry w
  else Returned (None, hook, w).

(** [Levels] returns [logrus.AllLevels]. *)
Definition Levels (hook : LfsHook) : list Level := AllLevels.

(** * Vocabulary of the properties *)

(** No call fails except for what the file system itself refuses. *)
Definition quiet (w : World) : Prop := ∀ t c, faults w t c = None.

(** [w'] comes from [w] by calls that only touch the directory. *)
Record moved (w w' : World) : Prop := {
  moved_made : made w' = made w;
  moved_inodes : inodes w' = inodes w;
  moved_sinks : sinks w' = sinks w;
  moved_faults : faults w' = faults w;
  moved_short : short w' = short w;
  moved_trace : ∃ t, trace w' = trace w ++ t
}.

(** The backups of [p] are the inodes [ids], at the suffixes
    [1 .. length ids], and no other suffix names a file. *)
Definition chained (ns : gmap string nat) (p : string) (ids : list nat) : Prop :=
  ∀ j : Z, ns !! bakName p j =
           if decide (1 ≤ j) then ids !! Z.to_nat (j - 1) else None.

(** Every backup of [p] that exists has a suffix in [1 .. M]. *)
Definition bounded (ns : gmap string nat) (p : string) (M : Z) : Prop :=
  ∀ j : Z, is_Some (ns !! bakName p j) → 1 ≤ j ≤ M.

(** The directory while [fileBakMove] is at [i]: the suffixes below [i]
    have been filled from above, [i] is free, the others wait. *)
Definition shifted (ns : gmap string nat) (p : string) (ids : list nat)
    (i : Z) : Prop :=
  ∀ j : Z, ns !! bakName p j =
           if decide (1 ≤ j) then
             if decide (j < i) then ids !! Z.to_nat j
             else if decide (j = i) then None
             else ids !! Z.to_nat (j - 1)
           else None.

(** What the roll-over branch of [fileCheck] does to the world once the
    file has been closed. *)
Definition rollOver (c : LfsHook) (p : string) (w : World) : World :=
  let '(ln, w) := fileBakLen c p w in
  if FdMaxLen c <=? ln then
    let w := fileBakMove c p w in
    (os_Rename p (bakName p ln) w).2
  else (os_Rename p (bakName p (ln + 1)) w).2.

(** The last [M] elements of a list. *)
Definition keep {A} (M : Z) (l : list A) : list A :=
  drop (length l - Z.to_nat M) l.

(** The ensure-open turn of [fileCheck]: [Stat], then [OpenFile]. *)
Definition reopen (p : string) (w : World) : World :=
  (os_OpenFile p (os_Stat p w).2).2.

(** The length the handle starts from: what [Stat] reported, else 0. *)
Definition start_len (p : string) (w : World) : Z :=
  match (os_Stat p w).1 with Ok size => size | Err _ => 0 end.

(** The backups of [p] hold the contents [cs]: suffix [j] holds the
    [j]-th of them, and no other suffix names a file. *)
Definition backups_are (w : World) (p : string) (cs : list bytes) : Prop :=
  ∃ ids, chained (names w) p ids ∧
         Forall2 (λ i c, inodes w !! i = Some c) ids cs.

(** The bytes of a Go string. *)
Fixpoint bytes_of (s : string) : bytes :=
  match s with
  | EmptyString => []
  | String a s => Ascii.byte_of_ascii a :: bytes_of s
  end.

(** A caller that fires the entries one after the other. *)
Fixpoint fireAll (fuel : nat) (hook : LfsHook) (entries : list Entry)
    (w : World) : outcome (list (option error) * LfsHook * World) :=
  match entries with
  | [] => Returned ([], hook, w)
  | entry :: entries =>
    match Fire fuel hook entry w with
    | Returned (err, hook, w) =>
      match fireAll fuel hook entries w with
      | Returned (errs, hook, w) => Returned (err :: errs, hook, w)
      | Panicked => Panicked
      | NoFuel => NoFuel
      end
    | Panicked => Panicked
    | NoFuel => NoFuel
    end
  end.

(** A world in which nothing has happened yet and no call will fail. *)
Definition empty_world : World :=
  {| names := ∅; inodes := []; sinks := ∅; made := ∅; trace := [];
     faults := λ _ _, None; short := λ _, 0%nat |}.

(** A formatter that renders the message of the entry. *)
Definition plain : Formatter :=
  {| isText := false; isNil := false; DisableColors := false;
     render := λ _ entry, Ok (bytes_of (Message entry)) |}.

Definition info (msg : string) : Entry :=
  {| EntryLevel := InfoLevel; Message := msg |}.

(** A hook for ["app.log"] with the given limits, and a world in which
    ["app.log"] holds the three bytes of ["AAA"]. *)
Definition small_hook (maxlen maxsize : Z) : LfsHook :=
  {| paths := None; writers := None; levels := []; formatter := plain;
     defaultPath := "app.log"; defaultWriter := None;
     hasDefaultPath := true; hasDefaultWriter := false;
     FdMaxLen := maxlen; FdMaxSize := maxsize; fls := ∅ |}.

Definition one_file_world : World :=
  {| names := {["app.log" := 0%nat]}; inodes := [bytes_of "AAA"];
     sinks := ∅; made := ∅; trace := []; faults := λ _ _, None; short := λ _, 0%nat |}.

Definition open_handle (size : Z) : lfsFile :=
  {| fd := Some 0%nat; path := "app.log"; ln := size |}.

Definition turn_world (t : turn) : World :=
  match t with Again _ w | Break _ w | Return _ _ w => w end.

Definition turn_handle (t : turn) : lfsFile :=
  match t with Again fe _ | Break fe _ | Return _ fe _ => fe end.

(** At most [M] backups of [p] exist: no list of distinct suffixes that all
    name a file is longer than [M]. *)
Definition at_most_backups (ns : gmap string nat) (p : string) (M : Z) : Prop :=
  ∀ js : list Z,
    NoDup js → (∀ j, j ∈ js → is_Some (ns !! bakName p j)) →
    Z.of_nat (length js) ≤ M.

(** A world in which ["app.log"] holds ["AAA"] and its backup
    ["app.log.1"] holds ["XXX"]. *)
Definition full_world : World :=
  {| names := {["app.log" := 0%nat; "app.log.1" := 1%nat]};
     inodes := [bytes_of "AAA"; bytes_of "XXX"];
     sinks := ∅; made := ∅; trace := []; faults := λ _ _, None; short := λ _, 0%nat |}.

(** The calls made between [w] and the later world [w']. *)
Definition since (w w' : World) : list event :=
  drop (length (trace w)) (trace w').




Definition closed_handle (p : string) : lfsFile :=
  {| fd := None; path := p; ln := 0 |}.

(** ["app.log"] holds three bytes in a directory that refuses every
    rename, as a directory without write permission does. *)
Definition stuck_world : World :=
  {| names := {["app.log" := 0%nat]}; inodes := [bytes_of "AAA"];
     sinks := ∅; made := ∅; trace := [];
     faults := λ _ c,
       match c with Rename _ _ => Some ErrPermission | _ => None end;
     short := λ _, 0%nat |}.

(** Some writer is configured: [Fire] goes to [ioWrite]. *)
Definition sink_config (h : LfsHook) : bool :=
  bool_decide (is_Some (writers h)) || hasDefaultWriter h.

(** Some path is configured. *)
Definition path_config (h : LfsHook) : bool :=
  bool_decide (is_Some (paths h)) || hasDefaultPath h.

(** The level has no entry in the map that [Fire] consults and that map
    has no default. *)
Definition no_destination (h : LfsHook) (level : N) : Prop :=
  if sink_config h
  then map_get (writers h) level = None ∧ hasDefaultWriter h = false
  else map_get (paths h) level = None ∧ hasDefaultPath h = false.

(** The hooks that the exported functions and fields produce. *)
Inductive reachable : LfsHook → Prop :=
| reach_new fmt0 output f maxsz h :
    NewLfsHook fmt0 output f maxsz = Returned h → reachable h
| reach_SetFormatter fmt0 h f h' :
    reachable h → SetFormatter fmt0 h f = Returned h' → reachable h'
| reach_SetDefaultPath h p :
    reachable h → reachable (SetDefaultPath h p)
| reach_SetDefaultWriter h wr :
    reachable h → reachable (SetDefaultWriter h wr)
| reach_limits h maxlen maxsize :
    reachable h → reachable (set_limits maxlen maxsize h)
| reach_Fire fuel h entry w err h' w' :
    reachable h → Fire fuel h entry w = Returned (err, h', w') →
    reachable h'.

(** Every handle belongs to a level whose path can be resolved. *)
Definition resolved (h : LfsHook) : Prop :=
  ∀ level fe, fls h !! level = Some fe →
    is_Some (map_get (paths h) level) ∨ hasDefaultPath h = true.

(** The first part of [fileWrite]: the handle of the level, created with
    its directory when the level has none yet. *)
Definition lookup_handle (hook : LfsHook) (entry : Entry) (w : World)
  : option (lfsFile * World) :=
  match fls hook !! EntryLevel entry with
  | Some fe => Some (fe, w)
  | None =>
    let path :=
      match map_get (paths hook) (EntryLevel entry) with
      | Some path => Some path
      | None => if hasDefaultPath hook then Some (defaultPath hook) else None
      end in
    match path with
    | None => None
    | Some path =>
      let '(_, w) := os_MkdirAllDir path w in
      Some ({| fd := None; path := path; ln := 0 |}, w)
    end
  end.

(** A disk that is full: every write to a file or a writer fails. *)
Definition disk_full_world : World :=
  {| names := ∅; inodes := []; sinks := ∅; made := ∅; trace := [];
     faults := λ _ c,
       match c with
       | FileWrite _ _ | WriterWrite _ _ => Some ErrIO
       | _ => None
       end;
     short := λ _, 0%nat |}.

(** What [NewLfsHook] returns for a path map with the error level only,
    and for a writer map with the error level only. *)
Definition error_path_hook : LfsHook :=
  {| paths := Some {[ErrorLevel := "error.log"]}; writers := None;
     levels := [ErrorLevel]; formatter := plain; defaultPath := "";
     defaultWriter := None; hasDefaultPath := false;
     hasDefaultWriter := false; FdMaxLen := 10;
     FdMaxSize := 1024 * 1024 * 10; fls := ∅ |}.

Definition error_writer_hook : LfsHook :=
  {| paths := None; writers := Some {[ErrorLevel := 7%nat]};
     levels := [ErrorLevel]; formatter := plain; defaultPath := "";
     defaultWriter := None; hasDefaultPath := false;
     hasDefaultWriter := false; FdMaxLen := 10;
     FdMaxSize := 1024 * 1024 * 10; fls := ∅ |}.

(** Calls that neither open nor write a file. *)
Definition housekeeping (ev : event) : Prop :=
  match ev_call ev with
  | Stat _ | Close _ | Rename _ _ | RemoveAll _ | MkdirAllDir _
  | Println _ => True
  | OpenFile _ | FileWrite _ _ | WriterWrite _ _ => False
  end.

Definition no_write (ev : event) : Prop :=
  match ev_call ev with
  | FileWrite _ _ | WriterWrite _ _ => False
  | _ => True
  end.

Definition no_open (ev : event) : Prop :=
  match ev_call ev with
  | OpenFile _ => False
  | _ => True
  end.

(** [w'] comes from [w] by housekeeping calls. *)
Definition kept (w w' : World) : Prop :=
  ∃ t, trace w' = trace w ++ t ∧ Forall housekeeping t.

(** The handle and the world after [k] turns of the loop of [fileCheck]
    that all asked for another turn. *)
Fixpoint turns (k : nat) (c : LfsHook) (fe : lfsFile) (w : World)
  : option (lfsFile * World) :=
  match k with
  | O => Some (fe, w)
  | S k =>
    match fileCheck_body c fe w with
    | Again fe w => turns k c fe w
    | _ => None
    end
  end.

(** Every [OpenFile] is refused, as for a file without write permission. *)
Definition locked_world : World :=
  {| names := {["app.log" := 0%nat]}; inodes := [bytes_of "AAA"];
     sinks := ∅; made := ∅; trace := [];
     faults := λ _ c,
       match c with OpenFile _ => Some ErrPermission | _ => None end;
     short := λ _, 0%nat |}.

(** The byte counts that the file writes of a trace reported, oldest
    first. *)
Definition writes (t : list event) : list Z :=
  omap (λ ev, match ev_call ev with
              | FileWrite _ _ => Some (ev_n ev)
              | _ => None
              end) t.

(** [ln += int64(n)] for each count in turn. *)
Definition wsum (start : Z) (ns : list Z) : Z :=
  fold_left (λ a n, int64 (a + n)) ns start.

Definition sumZ (ns : list Z) : Z := foldr Z.add 0 ns.

(** The tracked length [ln'] accounts for the trace [t] of a handle that
    had the length [ln0] before it: either no [OpenFile] was called and
    [ln'] is [ln0] plus the counts written, or [ln'] is the length that the
    [Stat] before the last [OpenFile] reported (0 when it failed) plus the
    counts written after it. *)
Definition tracked (ln0 : Z) (t : list event) (ln' : Z) : Prop :=
  (Forall no_open t ∧ ln' = wsum ln0 (writes t)) ∨
  (∃ pre name e n name' eo post,
     t = pre ++ [Ev (Stat name) e n; Ev (OpenFile name') eo 0] ++ post ∧
     Forall no_open post ∧
     ln' = wsum (match e with None => n | Some _ => 0 end) (writes post)).

(** The tracked length of the handle of a level, 0 when there is none. *)
Definition handle_ln (h : LfsHook) (level : N) : Z :=
  default 0 (ln <$> fls h !! level).

(** ["app.log"] holds three bytes and every write to a file stops after
    one byte, with an error. *)
Definition short_write_world : World :=
  {| names := {["app.log" := 0%nat]}; inodes := [bytes_of "AAA"];
     sinks := ∅; made := ∅; trace := [];
     faults := λ _ c,
       match c with FileWrite _ _ => Some ErrShortWrite | _ => None end;
     short := λ _, 1%nat |}.

(** The path that [fileWrite] gives to the handle of a level that has
    none yet: the entry of the map, else the default. *)
Definition resolve_path (h : LfsHook) (level : N) : option string :=
  match map_get (paths h) level with
  | Some p => Some p
  | None => if hasDefaultPath h then Some (defaultPath h) else None
  end.

(** The writer that [ioWrite] uses for a level. *)
Definition resolve_writer (h : LfsHook) (level : N) : option nat :=
  match map_get (writers h) level with
  | Some wr => Some wr
  | None => if hasDefaultWriter h then defaultWriter h else None
  end.

(** The handle is open on the file that has its name, and its tracked
    length is the length of that file. *)
Definition in_sync (fe : lfsFile) (w : World) : Prop :=
  ∃ i b, fd fe = Some i ∧ names w !! path fe = Some i ∧
         inodes w !! i = Some b ∧ ln fe = Z.of_nat (length b).

(** The name is free, or names a file with a content. *)
Definition whole (w : World) (p : string) : Prop :=
  names w !! p = None ∨ is_Some (content w p).

(** What a check leaves of the base file: nothing when it was over the
    limit, all of it otherwise. *)
Definition carried (c : LfsHook) (old : bytes) : bytes :=
  if decide (FdMaxSize c < Z.of_nat (length old)) then [] else old.

(** ["app.log"] with the backups 1 and 3, but no backup 2. *)
Definition gap_world : World :=
  {| names := {["app.log" := 0%nat; "app.log.1" := 1%nat;
                "app.log.3" := 2%nat]};
     inodes := [bytes_of "AAA"; bytes_of "XXX"; bytes_of "ZZZ"];
     sinks := ∅; made := ∅; trace := []; faults := λ _ _, None; short := λ _, 0%nat |}.

(** The backup ["app.log.1"] of a base file that is gone. *)
Definition orphan_world : World :=
  {| names := {["app.log.1" := 0%nat]}; inodes := [bytes_of "XXX"];
     sinks := ∅; made := ∅; trace := []; faults := λ _ _, None; short := λ _, 0%nat |}.

(** The bytes that the formatter of the hook renders for an entry, none
    when it fails. *)
Definition rendered (hook : LfsHook) (entry : Entry) : bytes :=
  match Format (formatter hook) entry with Ok msg => msg | Err _ => [] end.

(** The base file after the entries, from its content before them: each
    entry first drops a content that is over the limit, then appends. *)
Definition base_after (hook : LfsHook) (old : bytes) (es : list Entry) : bytes :=
  fold_left (λ b entry, carried hook b ++ rendered hook entry) es old.

(** The path of the handle of a level, or the one it would get. *)
Definition handle_path (hook : LfsHook) (level : N) : option string :=
  match fls hook !! level with
  | Some fe => Some (path fe)
  | None => resolve_path hook level
  end.

(** The hook is in file mode in a quiet world and the handle of the level
    is absent with a whole name to open, closed on a whole name, or open and
    in step with its file. *)
Definition ready (hook : LfsHook) (level : N) (w : World) : Prop :=
  quiet w ∧ 0 ≤ FdMaxSize hook ∧
  sink_config hook = false ∧ path_config hook = true ∧
  match fls hook !! level with
  | Some fe => (fd fe = None ∧ whole w (path fe)) ∨ in_sync fe w
  | None => ∃ p, resolve_path hook level = Some p ∧ whole w p
  end.

(** A formatter that fails for every entry. *)
Definition failing : Formatter :=
  {| isText := false; isNil := false; DisableColors := false;
     render := λ _ _, Err ErrFormat |}.

Definition with_formatter (f : Formatter) (h : LfsHook) : LfsHook :=
  {| paths := paths h; writers := writers h; levels := levels h;
     formatter := f; defaultPath := defaultPath h;
     defaultWriter := defaultWriter h; hasDefaultPath := hasDefaultPath h;
     hasDefaultWriter := hasDefaultWriter h; FdMaxLen := FdMaxLen h;
     FdMaxSize := FdMaxSize h; fls := fls h |}.

(** A rename of the base file [p] that succeeded. *)
Definition renamed_base (p : string) (ev : event) : bool :=
  match ev_call ev, ev_err ev with
  | Rename a _, None => bool_decide (a = p)
  | _, _ => false
  end.

(** The file [p] has been rolled over in the course of the calls [evs]:
    one of them renamed it. *)
Definition rolled (p : string) (evs : list event) : bool :=
  existsb (renamed_base p) evs.

(** [w'] comes from [w] by calls that do not roll [p] over. *)
Definition aside (p : string) (w w' : World) : Prop :=
  ∃ t, trace w' = trace w ++ t ∧ rolled p t = false.

(** The size of the file called [p], 0 when no file has the name. *)
Definition file_len (w : World) (p : string) : Z :=
  Z.of_nat (length (default [] (content w p))).

(** The length that the threshold check of a write compares with the
    limit: the tracked length of a handle that is open, the size of the
    file for a handle that is closed or new. *)
Definition seen_len (fe : lfsFile) (w : World) : Z :=
  match fd fe with Some _ => ln fe | None => file_len w (path fe) end.

(** The two calls of ensure-open in a quiet world. *)
Definition opening (p : string) (w : World) : list event :=
  [Ev (Stat p)
      (match names w !! p with Some _ => None | None => Some ErrNotExist end)
      (file_len w p);
   Ev (OpenFile p) None 0].

(** The last call of a [fileWrite] that got through its check. *)
Definition final_call (hook : LfsHook) (entry : Entry) (fe : lfsFile) : event :=
  match Format (formatter hook) entry with
  | Ok msg =>
    Ev (FileWrite (default 0%nat (fd fe)) msg) None (Z.of_nat (length msg))
  | Err e => Ev (Println e) None 0
  end.

(** * Properties *)

(** ** Names of backups *)

Lemma append_self_nil (p s : string) : p +:+ s = p → s = "".
Proof.
  induction p as [|a p IH]; simpl; [done|].
  intros H. injection H as H. auto.
Qed.

Lemma bakName_inj (p : string) (i j : Z) : bakName p i = bakName p j → i = j.
Proof.
  unfold bakName. intros H.
  apply (inj (String.app p)) in H. apply (inj (String.app ".")) in H.
  by apply (inj pretty) in H.
Qed.

Lemma bakName_ne (p : string) (i : Z) : bakName p i ≠ p.
Proof.
  unfold bakName. intros H. apply append_self_nil in H. discriminate H.
Qed.

(** ** Worlds *)

Lemma extend_nil w : extend [] w = w.
Proof. destruct w. unfold extend. simpl. by rewrite app_nil_r. Qed.

Lemma extend_extend t1 t2 w : extend t2 (extend t1 w) = extend (t1 ++ t2) w.
Proof. unfold extend. simpl. by rewrite app_assoc. Qed.

Lemma moved_refl w : moved w w.
Proof. split; try done. exists []. by rewrite app_nil_r. Qed.

Lemma moved_trans w1 w2 w3 : moved w1 w2 → moved w2 w3 → moved w1 w3.
Proof.
  intros [? ? ? ? ? [t1 ?]] [? ? ? ? ? [t2 ?]]. split; try congruence.
  exists (t1 ++ t2). rewrite app_assoc. congruence.
Qed.

Lemma moved_extend t w : moved w (extend t w).
Proof. split; try done. by exists t. Qed.

Lemma moved_quiet w w' : moved w w' → quiet w → quiet w'.
Proof. intros [_ _ _ Hf _ _] Hq t c. rewrite Hf. apply Hq. Qed.

Lemma os_Stat_moved name w : moved w (os_Stat name w).2.
Proof.
  unfold os_Stat. repeat case_match; simpl; apply moved_extend.
Qed.

Lemma os_Stat_names name w : names (os_Stat name w).2 = names w.
Proof. unfold os_Stat. by repeat case_match. Qed.

Lemma os_Rename_moved a b w : moved w (os_Rename a b w).2.
Proof.
  unfold os_Rename. repeat case_match; simpl; try apply moved_extend.
  split; try done. by eexists.
Qed.

Lemma os_RemoveAll_moved a w : moved w (os_RemoveAll a w).2.
Proof.
  unfold os_RemoveAll. repeat case_match; simpl; try apply moved_extend.
  split; try done. by eexists.
Qed.

(** A rename either leaves the directory alone or moves one entry. *)
Lemma os_Rename_names a b w :
  names (os_Rename a b w).2 = names w ∨
  ∃ i, names w !! a = Some i ∧
       names (os_Rename a b w).2 = <[b := i]> (delete a (names w)).
Proof.
  unfold os_Rename. repeat case_match; simpl; eauto.
Qed.

Lemma os_Rename_quiet a b w :
  quiet w →
  names (os_Rename a b w).2 =
    match names w !! a with
    | Some i => <[b := i]> (delete a (names w))
    | None => names w
    end.
Proof.
  intros Hq. unfold os_Rename. rewrite Hq. by case_match.
Qed.

Lemma os_RemoveAll_names a w :
  names (os_RemoveAll a w).2 = names w ∨
  names (os_RemoveAll a w).2 = delete a (names w).
Proof. unfold os_RemoveAll. case_match; simpl; eauto. Qed.

Lemma os_RemoveAll_quiet a w :
  quiet w → names (os_RemoveAll a w).2 = delete a (names w).
Proof. intros Hq. unfold os_RemoveAll. by rewrite Hq. Qed.

Lemma os_Stat_extend name w : ∃ ev, (os_Stat name w).2 = extend [ev] w.
Proof. unfold os_Stat, record. repeat case_match; simpl; eauto. Qed.

Lemma os_Stat_quiet name w :
  quiet w →
  os_Stat name w =
    match names w !! name with
    | Some i => (Ok (fsize w i), record (Stat name) None (fsize w i) w)
    | None => (Err ErrNotExist, record (Stat name) (Some ErrNotExist) 0 w)
    end.
Proof. intros Hq. unfold os_Stat. by rewrite Hq. Qed.

(** ** Counting the backups *)

(** [fileBakLen] only looks: it leaves the world as it is, apart from the
    trace, and counts at most [k] names. *)
Lemma fileBakLen_loop_frame c p k :
  ∀ i ln w, ∃ t,
    (fileBakLen_loop k c p i ln w).2 = extend t w ∧
    ln ≤ (fileBakLen_loop k c p i ln w).1 ≤ ln + Z.of_nat k.
Proof.
  induction k as [|k IH]; intros i ln w; simpl.
  - exists []. rewrite extend_nil. split; [done|lia].
  - destruct (i <=? FdMaxLen c).
    + destruct (os_Stat_extend (bakName p i) w) as [ev Hev].
      destruct (os_Stat (bakName p i) w) as [r w1]. simpl in Hev. subst w1.
      destruct (negb (IsNotExist (err_of r))).
      * destruct (IH (i + 1) (ln + 1) (extend [ev] w)) as (t & Ht & Hn).
        exists ([ev] ++ t). rewrite Ht, extend_extend. split; [done|lia].
      * exists [ev]. simpl. split; [done|lia].
    + exists []. rewrite extend_nil. simpl. split; [done|lia].
Qed.

Lemma fileBakLen_frame c p w :
  ∃ t, (fileBakLen c p w).2 = extend t w ∧
       0 ≤ (fileBakLen c p w).1 ≤ Z.max 0 (FdMaxLen c).
Proof.
  unfold fileBakLen.
  destruct (fileBakLen_loop_frame c p (Z.to_nat (FdMaxLen c)) 1 0 w)
    as (t & Ht & Hn).
  exists t. split; [done|lia].
Qed.

Lemma fileBakLen_loop_chained c p ids k :
  ∀ i ln w,
    quiet w → chained (names w) p ids →
    1 ≤ i → i - 1 ≤ Z.of_nat (length ids) ≤ FdMaxLen c →
    Z.of_nat k = FdMaxLen c - i + 1 →
    ∃ t, fileBakLen_loop k c p i ln w =
         (ln + (Z.of_nat (length ids) - (i - 1)), extend t w).
Proof.
  induction k as [|k IH]; intros i ln w Hq Hc Hi Hlen Hk; simpl.
  - exists []. rewrite extend_nil. f_equal. lia.
  - destruct (Z.leb_spec i (FdMaxLen c)); [|lia].
    rewrite os_Stat_quiet by done. rewrite Hc.
    destruct (decide (1 ≤ i)); [|lia].
    destruct (ids !! Z.to_nat (i - 1)) as [x|] eqn:Hx; simpl.
    + apply lookup_lt_Some in Hx.
      destruct (IH (i + 1) (ln + 1)
                  (record (Stat (bakName p i)) None (fsize w x) w))
        as (t & Ht); try done; try lia.
      rewrite Ht. eexists. unfold record. rewrite extend_extend.
      f_equal. lia.
    + apply lookup_ge_None in Hx. eexists. unfold record. f_equal. lia.
Qed.

Lemma fileBakLen_chained c p ids w :
  quiet w → chained (names w) p ids →
  Z.of_nat (length ids) ≤ FdMaxLen c →
  ∃ t, fileBakLen c p w = (Z.of_nat (length ids), extend t w).
Proof.
  intros Hq Hc Hlen. unfold fileBakLen.
  destruct (fileBakLen_loop_chained c p ids (Z.to_nat (FdMaxLen c)) 1 0 w)
    as (t & Ht); try done; try lia.
  exists t. rewrite Ht. f_equal. lia.
Qed.

(** ** Moving the backups *)

Lemma bounded_Rename a b w p M :
  bounded (names w) p M →
  (∀ j, b = bakName p j → 1 ≤ j ≤ M) →
  bounded (names (os_Rename a b w).2) p M.
Proof.
  intros Hb Hin. destruct (os_Rename_names a b w) as [->|(i & _ & ->)]; [done|].
  intros j Hj. destruct (decide (b = bakName p j)) as [->|Hne]; [by apply Hin|].
  rewrite lookup_insert_ne in Hj by done.
  apply Hb. destruct Hj as [x Hx]. apply lookup_delete_Some in Hx as [_ Hx].
  by exists x.
Qed.

Lemma bounded_RemoveAll a w p M :
  bounded (names w) p M → bounded (names (os_RemoveAll a w).2) p M.
Proof.
  intros Hb. destruct (os_RemoveAll_names a w) as [->| ->]; [done|].
  intros j [x Hx]. apply lookup_delete_Some in Hx as [_ Hx].
  apply Hb. by exists x.
Qed.

Lemma frame_Rename a b w q :
  q ≠ a → q ≠ b → names (os_Rename a b w).2 !! q = names w !! q.
Proof.
  intros Ha Hb. destruct (os_Rename_names a b w) as [->|(i & _ & ->)]; [done|].
  rewrite lookup_insert_ne by done. by rewrite lookup_delete_ne.
Qed.

Lemma frame_RemoveAll a w q :
  q ≠ a → names (os_RemoveAll a w).2 !! q = names w !! q.
Proof.
  intros Ha. destruct (os_RemoveAll_names a w) as [->| ->]; [done|].
  by rewrite lookup_delete_ne.
Qed.

Lemma fileBakMove_loop_spec c p q k :
  ∀ i w,
    1 ≤ i → (∀ j, q ≠ bakName p j) →
    moved w (fileBakMove_loop k c p i w) ∧
    names (fileBakMove_loop k c p i w) !! q = names w !! q ∧
    (bounded (names w) p (FdMaxLen c) →
     bounded (names (fileBakMove_loop k c p i w)) p (FdMaxLen c)).
Proof.
  induction k as [|k IH]; intros i w Hi Hq; simpl.
  - split; [apply moved_refl|done].
  - destruct (Z.ltb_spec i (FdMaxLen c)); [|split; [apply moved_refl|done]].
    pose proof (os_Rename_moved (bakName p (i + 1)) (bakName p i) w) as Hm.
    pose proof (frame_Rename (bakName p (i + 1)) (bakName p i) w q
                  (Hq _) (Hq _)) as Hf.
    pose proof (bounded_Rename (bakName p (i + 1)) (bakName p i) w p
                  (FdMaxLen c)) as Hb.
    destruct (os_Rename (bakName p (i + 1)) (bakName p i) w) as [e w1].
    simpl in *. destruct (IH (i + 1) w1) as (Hm' & Hf' & Hb'); [lia|done|].
    split; [by eapply moved_trans|]. split; [congruence|].
    intros Hbw. apply Hb', Hb; [done|].
    intros j Hj. apply bakName_inj in Hj. lia.
Qed.

Lemma fileBakMove_spec c p q w :
  (∀ j, q ≠ bakName p j) →
  moved w (fileBakMove c p w) ∧
  names (fileBakMove c p w) !! q = names w !! q ∧
  (bounded (names w) p (FdMaxLen c) →
   bounded (names (fileBakMove c p w)) p (FdMaxLen c)).
Proof.
  intros Hq. unfold fileBakMove.
  pose proof (os_RemoveAll_moved (bakName p 1) w) as Hm.
  pose proof (frame_RemoveAll (bakName p 1) w q (Hq _)) as Hf.
  pose proof (bounded_RemoveAll (bakName p 1) w p (FdMaxLen c)) as Hb.
  destruct (os_RemoveAll (bakName p 1) w) as [e w1]. simpl in *.
  destruct (fileBakMove_loop_spec c p q (Z.to_nat (FdMaxLen c - 1)) 1 w1)
    as (Hm' & Hf' & Hb'); [lia|done|].
  split; [by eapply moved_trans|]. split; [congruence|auto].
Qed.

Lemma fileBakMove_loop_shifted c p ids k :
  ∀ i w,
    quiet w → shifted (names w) p ids i → 1 ≤ i →
    Z.of_nat k = FdMaxLen c - i →
    shifted (names (fileBakMove_loop k c p i w)) p ids (FdMaxLen c).
Proof.
  induction k as [|k IH]; intros i w Hq Hs Hi Hk; simpl.
  - by replace (FdMaxLen c) with i by lia.
  - destruct (Z.ltb_spec i (FdMaxLen c)); [|lia].
    pose proof (os_Rename_moved (bakName p (i + 1)) (bakName p i) w) as Hm.
    pose proof (os_Rename_quiet (bakName p (i + 1)) (bakName p i) w Hq) as Hn.
    destruct (os_Rename (bakName p (i + 1)) (bakName p i) w) as [e w1].
    simpl in *. apply IH; [by eapply moved_quiet| |lia|lia].
    intros j. rewrite Hn. pose proof (Hs (i + 1)) as Hnext.
    pose proof (Hs j) as Hj.
    repeat case_decide; try lia.
    all: replace (Z.to_nat (i + 1 - 1)) with (Z.to_nat i) in Hnext by lia.
    all: destruct (names w !! bakName p (i + 1)) as [x|] eqn:Hx.
    all: try (subst j; rewrite lookup_insert_eq; congruence).
    all: try (subst j; congruence).
    all: try (rewrite lookup_insert_ne
                by (intros ?%bakName_inj; lia);
              destruct (decide (j = i + 1)) as [->|];
              [rewrite lookup_delete_eq; try done
              |rewrite lookup_delete_ne by (intros ?%bakName_inj; lia)];
              try done).
    all: try (subst j; congruence).
    all: try (replace (Z.to_nat (i + 1 - 1)) with (Z.to_nat i) in * by lia;
              congruence).
Qed.

(** ** Rolling over *)

Lemma fileCheck_body_over c fe w d :
  fd fe = Some d → FdMaxSize c < ln fe →
  fileCheck_body c fe w =
    Again (set_fd None fe) (rollOver c (path fe) (os_Close d w).2).
Proof.
  intros Hd Hln. unfold fileCheck_body, rollOver. rewrite Hd.
  destruct (Z.ltb_spec (FdMaxSize c) (ln fe)); [|lia].
  destruct (os_Close d w) as [e w1]. simpl.
  destruct (fileBakLen c (path fe) w1) as [n w2].
  destruct (FdMaxLen c <=? n).
  - by destruct (os_Rename _ _ _).
  - by destruct (os_Rename _ _ _).
Qed.

Lemma fileCheck_body_under c fe w d :
  fd fe = Some d → ln fe ≤ FdMaxSize c → fileCheck_body c fe w = Break fe w.
Proof.
  intros Hd Hln. unfold fileCheck_body. rewrite Hd.
  by destruct (Z.ltb_spec (FdMaxSize c) (ln fe)); [lia|].
Qed.

Lemma keep_short {A} (M : Z) (l : list A) :
  Z.of_nat (length l) ≤ M → keep M l = l.
Proof.
  intros H. unfold keep. by replace (length l - Z.to_nat M)%nat with 0%nat by lia.
Qed.

Lemma keep_length {A} (M : Z) (l : list A) :
  0 ≤ M → Z.of_nat (length (keep M l)) = Z.min M (Z.of_nat (length l)).
Proof. intros H. unfold keep. rewrite length_drop. lia. Qed.

Lemma keep_snoc {A} (M : Z) (l : list A) (x : A) :
  1 ≤ M → keep M (keep M l ++ [x]) = keep M (l ++ [x]).
Proof.
  intros H. unfold keep. rewrite !length_app, length_drop. simpl.
  rewrite drop_app_le by (rewrite length_drop; lia).
  rewrite drop_drop.
  rewrite (drop_app_le l) by lia. do 2 f_equal. lia.
Qed.

Lemma rollOver_chained c p ids ib w :
  quiet w → 1 ≤ FdMaxLen c →
  chained (names w) p ids → Z.of_nat (length ids) ≤ FdMaxLen c →
  names w !! p = Some ib →
  moved w (rollOver c p w) ∧
  names (rollOver c p w) !! p = None ∧
  chained (names (rollOver c p w)) p (keep (FdMaxLen c) (ids ++ [ib])) ∧
  (∀ q, q ≠ p → (∀ j, q ≠ bakName p j) →
        names (rollOver c p w) !! q = names w !! q).
Proof.
  intros Hq HM Hc Hlen Hp. unfold rollOver.
  destruct (fileBakLen_chained c p ids w) as (t & ->); try done.
  assert (∀ j, p ≠ bakName p j) as Hpne by (intros j ?; by eapply bakName_ne).
  destruct (Z.leb_spec (FdMaxLen c) (Z.of_nat (length ids))) as [Hfull|Hroom].
  - (* the chain is full *)
    assert (Z.of_nat (length ids) = FdMaxLen c) as HlenM by lia.
    destruct (fileBakMove_spec c p p (extend t w)) as (Hm & Hfp & _); [done|].
    assert (shifted (names (fileBakMove c p (extend t w))) p ids (FdMaxLen c))
      as Hs.
    { unfold fileBakMove.
      pose proof (os_RemoveAll_moved (bakName p 1) (extend t w)) as Hm1.
      pose proof (os_RemoveAll_quiet (bakName p 1) (extend t w) Hq) as Hn1.
      destruct (os_RemoveAll (bakName p 1) (extend t w)) as [e w1].
      simpl in *.
      apply fileBakMove_loop_shifted; [by eapply moved_quiet| |lia|lia].
      intros j. rewrite Hn1. pose proof (Hc j) as Hj.
      repeat case_decide; try lia.
      - subst j. by rewrite lookup_delete_eq.
      - by rewrite lookup_delete_ne by (intros ?%bakName_inj; lia).
      - by rewrite lookup_delete_ne by (intros ?%bakName_inj; lia). }
    set (w2 := fileBakMove c p (extend t w)) in *.
    assert (quiet w2) as Hq2 by (eapply moved_quiet; [exact Hm|done]).
    pose proof (os_Rename_moved p (bakName p (Z.of_nat (length ids))) w2) as Hm3.
    pose proof (os_Rename_quiet p (bakName p (Z.of_nat (length ids))) w2 Hq2)
      as Hn3.
    simpl in Hfp. rewrite Hfp, Hp in Hn3.
    split; [|split; [|split]].
    + eapply moved_trans; [apply moved_extend|].
      eapply moved_trans; [exact Hm|exact Hm3].
    + rewrite Hn3. rewrite lookup_insert_ne by (intros ?; by eapply bakName_ne).
      by rewrite lookup_delete_eq.
    + intros j. rewrite Hn3. pose proof (Hs j) as Hj.
      unfold keep. rewrite length_app. simpl.
      replace (length ids + 1 - Z.to_nat (FdMaxLen c))%nat with 1%nat by lia.
      rewrite lookup_drop.
      destruct (decide (j = Z.of_nat (length ids))) as [->|Hne].
      * rewrite lookup_insert_eq. case_decide; [|lia].
        replace (1 + Z.to_nat (Z.of_nat (length ids) - 1))%nat
          with (length ids) by lia.
        by rewrite list_lookup_middle.
      * rewrite lookup_insert_ne by (intros ?%bakName_inj; lia).
        rewrite lookup_delete_ne by (intros ?; by eapply bakName_ne).
        rewrite Hj. repeat case_decide; try lia; try done.
        -- replace (1 + Z.to_nat (j - 1))%nat with (Z.to_nat j) by lia.
           by rewrite lookup_app_l by lia.
        -- rewrite (lookup_ge_None_2 ids) by lia.
           rewrite lookup_ge_None_2; [done|]. rewrite length_app. simpl. lia.
    + intros q Hqp Hqb.
      destruct (fileBakMove_spec c p q (extend t w)) as (_ & Hfq & _); [done|].
      fold w2 in Hfq. rewrite frame_Rename by done. by rewrite Hfq.
  - (* there is room *)
    pose proof (os_Rename_moved p (bakName p (Z.of_nat (length ids) + 1))
                  (extend t w)) as Hm3.
    pose proof (os_Rename_quiet p (bakName p (Z.of_nat (length ids) + 1))
                  (extend t w) Hq) as Hn3.
    simpl in Hn3. rewrite Hp in Hn3.
    split; [|split; [|split]].
    + eapply moved_trans; [apply moved_extend|exact Hm3].
    + rewrite Hn3. rewrite lookup_insert_ne by (intros ?; by eapply bakName_ne).
      by rewrite lookup_delete_eq.
    + intros j. rewrite Hn3. pose proof (Hc j) as Hj.
      rewrite keep_short by (rewrite length_app; simpl; lia).
      destruct (decide (j = Z.of_nat (length ids) + 1)) as [->|Hne].
      * rewrite lookup_insert_eq. case_decide; [|lia].
        replace (Z.to_nat (Z.of_nat (length ids) + 1 - 1))
          with (length ids) by lia.
        by rewrite list_lookup_middle.
      * rewrite lookup_insert_ne by (intros ?%bakName_inj; lia).
        rewrite lookup_delete_ne by (intros ?; by eapply bakName_ne).
        rewrite Hj. case_decide; [|done].
        destruct (decide (Z.to_nat (j - 1) < length ids)%nat).
        -- by rewrite lookup_app_l by lia.
        -- rewrite (lookup_ge_None_2 ids) by lia.
           rewrite lookup_ge_None_2; [done|]. rewrite length_app. simpl. lia.
    + intros q Hqp Hqb. by rewrite frame_Rename by done.
Qed.


Lemma os_RemoveAll_trace a w :
  ∃ e, trace (os_RemoveAll a w).2 = trace w ++ [Ev (RemoveAll a) e 0].
Proof. unfold os_RemoveAll. repeat case_match; simpl; eauto. Qed.

Lemma rollOver_moved c p w : moved w (rollOver c p w).
Proof.
  unfold rollOver.
  destruct (fileBakLen_frame c p w) as (t & Ht & _).
  destruct (fileBakLen c p w) as [n w1]. simpl in Ht. subst w1.
  destruct (FdMaxLen c <=? n).
  - destruct (fileBakMove_spec c p p (extend t w)) as (Hm & _).
    { intros j ?. by eapply bakName_ne. }
    eapply moved_trans; [apply moved_extend|].
    eapply moved_trans; [exact Hm|apply os_Rename_moved].
  - eapply moved_trans; [apply moved_extend|apply os_Rename_moved].
Qed.


(** In a quiet world the base name is free after the roll-over. *)
Lemma rollOver_base_gone c p w :
  quiet w → names (rollOver c p w) !! p = None.
Proof.
  intros Hq. unfold rollOver.
  destruct (fileBakLen_frame c p w) as (t & Ht & _).
  destruct (fileBakLen c p w) as [n w1]. simpl in Ht. subst w1.
  assert (∀ (b : string) (w1 : World),
            quiet w1 → b ≠ p → names (os_Rename p b w1).2 !! p = None) as Hgone.
  { intros b w1 Hq1 Hb. rewrite os_Rename_quiet by done.
    destruct (names w1 !! p) eqn:Hp; [|done].
    rewrite lookup_insert_ne by done. by rewrite lookup_delete_eq. }
  destruct (FdMaxLen c <=? n).
  - destruct (fileBakMove_spec c p p (extend t w)) as (Hm & _).
    { intros j ?. by eapply bakName_ne. }
    apply Hgone; [|apply bakName_ne].
    eapply moved_quiet; [exact Hm|done].
  - apply Hgone; [done|apply bakName_ne].
Qed.

(** ** Opening *)

Lemma fileCheck_body_closed c fe w :
  fd fe = None →
  fileCheck_body c fe w =
    match (os_OpenFile (path fe) (os_Stat (path fe) w).2).1 with
    | Err err =>
      Return err {| fd := None; path := path fe; ln := start_len (path fe) w |}
             (reopen (path fe) w)
    | Ok fl =>
      Again {| fd := Some fl; path := path fe; ln := start_len (path fe) w |}
            (reopen (path fe) w)
    end.
Proof.
  intros Hd. unfold fileCheck_body, reopen, start_len. rewrite Hd. simpl.
  destruct (os_Stat (path fe) w) as [[size|e] w1]; simpl;
    destruct (os_OpenFile (path fe) w1) as [[fl|err] w2]; simpl;
    unfold set_fd, set_ln; simpl; rewrite ?Hd; done.
Qed.

Lemma os_OpenFile_quiet p w :
  quiet w →
  os_OpenFile p w =
    match names w !! p with
    | Some i => (Ok i, record (OpenFile p) None 0 w)
    | None =>
      (Ok (length (inodes w)),
       record (OpenFile p) None 0
         (set_names (<[p := length (inodes w)]> (names w))
            (set_inodes (inodes w ++ [[]]) w)))
    end.
Proof. intros Hq. unfold os_OpenFile. by rewrite Hq. Qed.

(** Opening a name that is free, in a quiet world. *)
Lemma reopen_fresh p w :
  quiet w → names w !! p = None →
  start_len p w = 0 ∧
  (os_OpenFile p (os_Stat p w).2).1 = Ok (length (inodes w)) ∧
  names (reopen p w) = <[p := length (inodes w)]> (names w) ∧
  inodes (reopen p w) = inodes w ++ [[]] ∧
  faults (reopen p w) = faults w ∧
  trace (reopen p w) =
    trace w ++ [Ev (Stat p) (Some ErrNotExist) 0; Ev (OpenFile p) None 0].
Proof.
  intros Hq Hp. unfold reopen, start_len.
  rewrite os_Stat_quiet by done. rewrite Hp. simpl.
  rewrite os_OpenFile_quiet by done. simpl. rewrite Hp. simpl.
  by rewrite <- app_assoc.
Qed.

(** Opening a name that exists, in a quiet world. *)
Lemma reopen_existing p w i :
  quiet w → names w !! p = Some i →
  start_len p w = fsize w i ∧
  (os_OpenFile p (os_Stat p w).2).1 = Ok i ∧
  names (reopen p w) = names w ∧
  inodes (reopen p w) = inodes w ∧
  faults (reopen p w) = faults w ∧
  trace (reopen p w) =
    trace w ++ [Ev (Stat p) None (fsize w i); Ev (OpenFile p) None 0].
Proof.
  intros Hq Hp. unfold reopen, start_len.
  rewrite os_Stat_quiet by done. rewrite Hp. simpl.
  rewrite os_OpenFile_quiet by done. simpl. rewrite Hp. simpl.
  by rewrite <- app_assoc.
Qed.

Lemma os_Close_moved d w : moved w (os_Close d w).2.
Proof. apply moved_extend. Qed.

(** A handle that is open and over the limit, in a quiet world: the file is
    rolled over, a new one is opened, and the loop leaves. *)
Lemma fileCheck_rotate c fe d w fuel :
  quiet w → 0 ≤ FdMaxSize c → fd fe = Some d → FdMaxSize c < ln fe →
  fileCheck (S (S (S fuel))) c fe w =
    Some (None,
          {| fd := Some (length (inodes w)); path := path fe; ln := 0 |},
          reopen (path fe) (rollOver c (path fe) (os_Close d w).2)).
Proof.
  intros Hq Hmax Hd Hln.
  set (w1 := rollOver c (path fe) (os_Close d w).2).
  assert (moved w w1) as Hm.
  { eapply moved_trans; [apply os_Close_moved|apply rollOver_moved]. }
  assert (quiet w1) as Hq1 by (by eapply moved_quiet).
  assert (names w1 !! path fe = None) as Hgone.
  { apply rollOver_base_gone. eapply moved_quiet; [apply os_Close_moved|done]. }
  destruct (reopen_fresh (path fe) w1 Hq1 Hgone) as (Hs & Ho & _).
  change (fileCheck (S (S (S fuel))) c fe w)
    with (match fileCheck_body c fe w with
          | Again fe w => fileCheck (S (S fuel)) c fe w
          | Break fe w => Some (None, fe, w)
          | Return err fe w => Some (Some err, fe, w)
          end).
  rewrite (fileCheck_body_over c fe w d) by done. fold w1.
  change (fileCheck (S (S fuel)) c (set_fd None fe) w1)
    with (match fileCheck_body c (set_fd None fe) w1 with
          | Again fe w => fileCheck (S fuel) c fe w
          | Break fe w => Some (None, fe, w)
          | Return err fe w => Some (Some err, fe, w)
          end).
  rewrite fileCheck_body_closed by done. simpl path. rewrite Ho, Hs.
  simpl. erewrite fileCheck_body_under; [|done|simpl; lia].
  by rewrite (moved_inodes _ _ Hm).
Qed.

(** ** The order of the backups *)



(** The world after a roll-over and the opening of the new base file. *)
Lemma rotate_backups c p d bs b w :
  quiet w → 1 ≤ FdMaxLen c →
  backups_are w p (keep (FdMaxLen c) bs) → content w p = Some b →
  backups_are (reopen p (rollOver c p (os_Close d w).2)) p
    (keep (FdMaxLen c) (bs ++ [b])) ∧
  content (reopen p (rollOver c p (os_Close d w).2)) p = Some [].
Proof.
  intros Hq HM (ids & Hc & Hf) Hb.
  unfold content in Hb. destruct (names w !! p) as [ib|] eqn:Hp; [|done].
  simpl in Hb.
  set (w1 := (os_Close d w).2).
  assert (quiet w1) as Hq1 by (eapply moved_quiet; [apply os_Close_moved|done]).
  assert (Z.of_nat (length ids) ≤ FdMaxLen c) as Hlen.
  { rewrite (Forall2_length _ _ _ Hf).
    pose proof (keep_length (FdMaxLen c) bs). lia. }
  destruct (rollOver_chained c p ids ib w1 Hq1 HM Hc Hlen Hp)
    as (Hm & Hgone & Hc' & _).
  set (w2 := rollOver c p w1) in *.
  assert (quiet w2) as Hq2 by (by eapply moved_quiet).
  destruct (reopen_fresh p w2 Hq2 Hgone) as (_ & _ & Hn & Hi & _).
  assert (inodes w2 = inodes w) as Hi2 by apply (moved_inodes _ _ Hm).
  split.
  - exists (keep (FdMaxLen c) (ids ++ [ib])). split.
    + intros j. rewrite Hn.
      rewrite lookup_insert_ne by (intros ?; by eapply bakName_ne). apply Hc'.
    + rewrite <- (keep_snoc _ bs) by done.
      set (ks := keep (FdMaxLen c) bs) in *.
      unfold keep. rewrite !length_app. simpl.
      rewrite (Forall2_length _ _ _ Hf).
      apply Forall2_drop, Forall2_app.
      * eapply Forall2_impl; [exact Hf|]. intros i x Hx. simpl in Hx.
        rewrite Hi, Hi2. by apply lookup_app_l_Some.
      * constructor; [|constructor]. rewrite Hi, Hi2.
        by apply lookup_app_l_Some.
  - unfold content. rewrite Hn, lookup_insert_eq. simpl.
    rewrite Hi. by rewrite list_lookup_middle.
Qed.





(** ** The number of backups *)

Lemma bounded_at_most ns p M : 0 ≤ M → bounded ns p M → at_most_backups ns p M.
Proof.
  intros HM Hb js Hnd Hjs.
  assert (js ⊆+ seqZ 1 M) as Hsub.
  { apply NoDup_submseteq; [done|]. intros j Hj.
    apply elem_of_seqZ. specialize (Hb j (Hjs j Hj)). lia. }
  apply submseteq_length in Hsub. rewrite length_seqZ in Hsub. lia.
Qed.

Lemma chained_bounded ns p ids M :
  chained ns p ids → Z.of_nat (length ids) ≤ M → bounded ns p M.
Proof.
  intros Hc Hlen j [x Hx]. rewrite Hc in Hx.
  case_decide; [|done]. apply lookup_lt_Some in Hx. lia.
Qed.

Lemma reopen_names p w :
  names (reopen p w) = names w ∨
  names (reopen p w) = <[p := length (inodes w)]> (names w).
Proof.
  unfold reopen, os_OpenFile, os_Stat.
  repeat case_match; simpl; simplify_eq/=; auto.
Qed.

Lemma reopen_bounded p w M :
  bounded (names w) p M → bounded (names (reopen p w)) p M.
Proof.
  intros Hb. destruct (reopen_names p w) as [->| ->]; [done|].
  intros j Hj. apply Hb.
  by rewrite lookup_insert_ne in Hj by (intros ?; by eapply bakName_ne).
Qed.

Lemma rollOver_bounded c p w :
  1 ≤ FdMaxLen c →
  bounded (names w) p (FdMaxLen c) →
  bounded (names (rollOver c p w)) p (FdMaxLen c).
Proof.
  intros HM Hb. unfold rollOver.
  destruct (fileBakLen_frame c p w) as (t & Ht & Hn).
  destruct (fileBakLen c p w) as [n w1]. simpl in Ht, Hn. subst w1.
  destruct (Z.leb_spec (FdMaxLen c) n).
  - destruct (fileBakMove_spec c p p (extend t w)) as (_ & _ & Hb').
    { intros j ?. by eapply bakName_ne. }
    apply bounded_Rename; [by apply Hb'|].
    intros j ?%bakName_inj. lia.
  - apply bounded_Rename; [done|].
    intros j ?%bakName_inj. lia.
Qed.

Lemma fileCheck_body_path c fe w :
  path (turn_handle (fileCheck_body c fe w)) = path fe.
Proof.
  destruct (fd fe) as [d|] eqn:Hd.
  - destruct (Z.lt_ge_cases (FdMaxSize c) (ln fe)).
    + by rewrite (fileCheck_body_over c fe w d).
    + by rewrite (fileCheck_body_under c fe w d).
  - rewrite fileCheck_body_closed by done. by case_match.
Qed.

Lemma fileCheck_body_bounded c fe w :
  1 ≤ FdMaxLen c →
  bounded (names w) (path fe) (FdMaxLen c) →
  bounded (names (turn_world (fileCheck_body c fe w))) (path fe) (FdMaxLen c).
Proof.
  intros HM Hb. destruct (fd fe) as [d|] eqn:Hd.
  - destruct (Z.lt_ge_cases (FdMaxSize c) (ln fe)).
    + rewrite (fileCheck_body_over c fe w d) by done. simpl.
      by apply rollOver_bounded.
    + by rewrite (fileCheck_body_under c fe w d).
  - rewrite fileCheck_body_closed by done.
    case_match; simpl; by apply reopen_bounded.
Qed.

Lemma fileCheck_bounded c fuel :
  ∀ fe w r fe' w',
    1 ≤ FdMaxLen c →
    bounded (names w) (path fe) (FdMaxLen c) →
    fileCheck fuel c fe w = Some (r, fe', w') →
    path fe' = path fe ∧ bounded (names w') (path fe) (FdMaxLen c).
Proof.
  induction fuel as [|fuel IH]; intros fe w r fe' w' HM Hb Hrun; [done|].
  simpl in Hrun.
  pose proof (fileCheck_body_bounded c fe w HM Hb) as Hb1.
  pose proof (fileCheck_body_path c fe w) as Hp1.
  destruct (fileCheck_body c fe w) as [fe1 w1|fe1 w1|err fe1 w1];
    simpl in *; simplify_eq; try done.
  rewrite <- Hp1 in Hb1. destruct (IH _ _ _ _ _ HM Hb1 Hrun) as [Hp Hb2].
  split; [congruence|by rewrite <- Hp1].
Qed.

Lemma os_RemoveAll_quiet_eq a w :
  quiet w →
  (os_RemoveAll a w).2 =
    record (RemoveAll a) None 0 (set_names (delete a (names w)) w).
Proof. intros Hq. unfold os_RemoveAll. by rewrite Hq. Qed.

Lemma os_Rename_quiet_eq a b i w :
  quiet w → names w !! a = Some i →
  (os_Rename a b w).2 =
    record (Rename a b) None 0
      (set_names (<[b := i]> (delete a (names w))) w).
Proof. intros Hq Ha. unfold os_Rename. by rewrite Hq, Ha. Qed.

(** With a full chain the roll-over removes suffix 1 first and renames the
    base file last. *)
Lemma rollOver_full_trace c p ids ib w :
  quiet w → 1 ≤ FdMaxLen c →
  chained (names w) p ids → Z.of_nat (length ids) = FdMaxLen c →
  names w !! p = Some ib →
  ∃ t1 t2,
    trace (rollOver c p w) =
      trace w ++ t1 ++ [Ev (RemoveAll (bakName p 1)) None 0] ++ t2 ++
      [Ev (Rename p (bakName p (FdMaxLen c))) None 0].
Proof.
  intros Hq HM Hc Hlen Hp. unfold rollOver.
  destruct (fileBakLen_chained c p ids w) as (t & ->); [done|done|lia|].
  rewrite Hlen. rewrite Z.leb_refl.
  assert (∀ j, p ≠ bakName p j) as Hpne by (intros j ?; by eapply bakName_ne).
  destruct (fileBakMove_spec c p p (extend t w)) as (Hm & Hfp & _); [done|].
  assert (∃ t2, trace (fileBakMove c p (extend t w)) =
                trace w ++ t ++ [Ev (RemoveAll (bakName p 1)) None 0] ++ t2)
    as [t2 Ht2].
  { unfold fileBakMove.
    rewrite (surjective_pairing (os_RemoveAll (bakName p 1) (extend t w))).
    rewrite os_RemoveAll_quiet_eq by done.
    edestruct (fileBakMove_loop_spec c p p (Z.to_nat (FdMaxLen c - 1)) 1)
      as ([_ _ _ _ _ [t2 Ht2]] & _); [lia|done|].
    exists t2. rewrite Ht2. simpl. by rewrite <- !app_assoc. }
  erewrite os_Rename_quiet_eq;
    [|by eapply moved_quiet|by rewrite Hfp].
  exists t, t2. simpl. rewrite Ht2. by rewrite <- !app_assoc.
Qed.

Lemma keep_full_snoc {A} (M : Z) (l : list A) (x : A) :
  1 ≤ M → M ≤ Z.of_nat (length l) →
  keep M (l ++ [x]) = drop 1 (keep M l) ++ [x].
Proof.
  intros HM Hl. unfold keep. rewrite length_app, drop_drop. simpl.
  rewrite drop_app_le by lia. do 2 f_equal. lia.
Qed.

(** C4.  Whatever the file system does, a turn of the loop of [fileCheck],
    and so a call of it, leaves every backup of the file at a suffix in
    [1 .. FdMaxLen] when it found them so: at most [FdMaxLen] backups exist.
    In a quiet world, when the chain is full (the backups are the last
    [FdMaxLen] contents rolled over, oldest first), the roll-over first
    removes suffix 1, the oldest backup, and only later renames the base
    file into the chain; the oldest content is gone from the backups. *)
Theorem backups_never_exceed_limit c fe w :
  1 ≤ FdMaxLen c →
  bounded (names w) (path fe) (FdMaxLen c) →
  (bounded (names (turn_world (fileCheck_body c fe w))) (path fe) (FdMaxLen c) ∧
   at_most_backups (names (turn_world (fileCheck_body c fe w))) (path fe)
     (FdMaxLen c)) ∧
  (∀ fuel r fe' w',
     fileCheck fuel c fe w = Some (r, fe', w') →
     bounded (names w') (path fe) (FdMaxLen c) ∧
     at_most_backups (names w') (path fe) (FdMaxLen c)) ∧
  (∀ d bs b fuel,
     quiet w → 0 ≤ FdMaxSize c → fd fe = Some d → FdMaxSize c < ln fe →
     FdMaxLen c ≤ Z.of_nat (length bs) →
     backups_are w (path fe) (keep (FdMaxLen c) bs) →
     content w (path fe) = Some b →
     ∃ fe' w' t1 t2 t3,
       fileCheck (S (S (S fuel))) c fe w = Some (None, fe', w') ∧
       backups_are w' (path fe) (drop 1 (keep (FdMaxLen c) bs) ++ [b]) ∧
       trace w' =
         trace w ++ t1 ++
         [Ev (RemoveAll (bakName (path fe) 1)) None 0] ++ t2 ++
         [Ev (Rename (path fe) (bakName (path fe) (FdMaxLen c))) None 0] ++
         t3).
Proof.
  intros HM Hb. split; [|split].
  - pose proof (fileCheck_body_bounded c fe w HM Hb) as Hb1.
    split; [done|]. apply bounded_at_most; [lia|done].
  - intros fuel r fe' w' Hrun.
    destruct (fileCheck_bounded c fuel _ _ _ _ _ HM Hb Hrun) as [_ Hb1].
    split; [done|]. apply bounded_at_most; [lia|done].
  - intros d bs b fuel Hq Hmax Hd Hln Hfull Hbs Hbase.
    destruct (rotate_backups c (path fe) d bs b w Hq HM Hbs Hbase) as [Hbs' _].
    rewrite keep_full_snoc in Hbs' by done.
    destruct Hbs as (ids & Hc & Hf).
    unfold content in Hbase.
    destruct (names w !! path fe) as [ib|] eqn:Hp; [|done].
    set (w1 := (os_Close d w).2).
    assert (quiet w1) as Hq1
      by (eapply moved_quiet; [apply os_Close_moved|done]).
    assert (Z.of_nat (length ids) = FdMaxLen c) as Hlen.
    { rewrite (Forall2_length _ _ _ Hf).
      pose proof (keep_length (FdMaxLen c) bs). lia. }
    destruct (rollOver_full_trace c (path fe) ids ib w1 Hq1 HM Hc Hlen Hp)
      as (t1 & t2 & Ht).
    destruct (reopen_fresh (path fe) (rollOver c (path fe) w1))
      as (_ & _ & _ & _ & _ & Ht3).
    { eapply moved_quiet; [apply rollOver_moved|done]. }
    { by apply rollOver_base_gone. }
    assert (trace w1 = trace w ++ [Ev (Close d) None 0]) as Ht0.
    { unfold w1, os_Close. simpl. by rewrite Hq. }
    exists {| fd := Some (length (inodes w)); path := path fe; ln := 0 |},
      (reopen (path fe) (rollOver c (path fe) w1)),
      (Ev (Close d) None 0 :: t1), t2,
      [Ev (Stat (path fe)) (Some ErrNotExist) 0;
       Ev (OpenFile (path fe)) None 0].
    split; [by apply fileCheck_rotate|]. split; [done|].
    rewrite Ht3, Ht, Ht0. rewrite <- !app_assoc. reflexivity.
Qed.

Lemma full_world_chained : chained (names full_world) "app.log" [1%nat].
Proof.
  intros j. simpl.
  rewrite lookup_insert_ne by (intros ?; by eapply (bakName_ne "app.log" j)).
  destruct (decide (j = 1)) as [->|Hj]; [done|].
  rewrite lookup_singleton_ne
    by (intros H; by apply (bakName_inj "app.log" 1 j) in H).
  case_decide; [|done]. symmetry. apply lookup_ge_None. simpl. lia.
Qed.

Lemma full_world_backups :
  backups_are full_world "app.log" (keep 1 [bytes_of "XXX"]).
Proof.
  exists [1%nat]. split; [exact full_world_chained|by repeat constructor].
Qed.

Lemma backups_never_exceed_limit_witness :
  bounded (names (turn_world
                    (fileCheck_body (small_hook 1 2) (open_handle 3)
                       full_world)))
    "app.log" 1 ∧
  ∃ fe' w' t1 t2 t3,
    fileCheck 3 (small_hook 1 2) (open_handle 3) full_world
    = Some (None, fe', w') ∧
    backups_are w' "app.log" (drop 1 (keep 1 [bytes_of "XXX"]) ++
                              [bytes_of "AAA"]) ∧
    trace w' =
      [] ++ t1 ++ [Ev (RemoveAll (bakName "app.log" 1)) None 0] ++ t2 ++
      [Ev (Rename "app.log" (bakName "app.log" 1)) None 0] ++ t3.
Proof.
  destruct (backups_never_exceed_limit (small_hook 1 2) (open_handle 3)
              full_world) as ([Hturn _] & _ & Hfull).
  - simpl. lia.
  - apply (chained_bounded _ _ [1%nat]); [|simpl; lia].
    exact full_world_chained.
  - split; [exact Hturn|].
    apply (Hfull 0%nat [bytes_of "XXX"] (bytes_of "AAA") 0%nat).
    + intros t c. reflexivity.
    + simpl. lia.
    + reflexivity.
    + simpl. lia.
    + simpl. lia.
    + exact full_world_backups.
    + reflexivity.
Defined.

(** The scenario of the test, in small: forty-two records of four bytes
    with a limit of sixteen bytes and three backups leave exactly the
    backups 1, 2 and 3, and a base file with the last two records. *)
Example scenario_backups_capped :
  match fireAll 3 (small_hook 3 16) (replicate 42 (info "abcd"))
          empty_world with
  | Returned (errs, hook', w') =>
    Forall (λ err, err = None) errs ∧
    is_Some (content w' (bakName "app.log" 1)) ∧
    is_Some (content w' (bakName "app.log" 2)) ∧
    is_Some (content w' (bakName "app.log" 3)) ∧
    content w' (bakName "app.log" 4) = None ∧
    content w' (bakName "app.log" 0) = None ∧
    length <$> content w' "app.log" = Some 8%nat
  | _ => False
  end.
Proof. vm_compute. repeat split; try by eexists. by repeat constructor. Qed.

(** ** When the file is rolled over *)

Lemma since_app w w' t : trace w' = trace w ++ t → since w w' = t.
Proof. intros H. unfold since. rewrite H. apply drop_app_length. Qed.








(** ** Resuming with an existing file *)



(** ** A rename that keeps failing *)

Lemma os_Rename_refused a b w :
  is_Some (faults w (tick w) (Rename a b)) →
  names (os_Rename a b w).2 = names w.
Proof. intros [e He]. unfold os_Rename. by rewrite He. Qed.

Lemma rollOver_refused c p w :
  (∀ t a b, is_Some (faults w t (Rename a b))) →
  names (rollOver c p w) !! p = names w !! p.
Proof.
  intros Hf. unfold rollOver.
  destruct (fileBakLen_frame c p w) as (t & Ht & _).
  destruct (fileBakLen c p w) as [n w1]. simpl in Ht. subst w1.
  destruct (FdMaxLen c <=? n).
  - destruct (fileBakMove_spec c p p (extend t w)) as (Hm & Hfp & _).
    { intros j ?. by eapply bakName_ne. }
    rewrite os_Rename_refused; [done|].
    rewrite (moved_faults _ _ Hm). apply Hf.
  - rewrite os_Rename_refused; [done|]. apply Hf.
Qed.

(** When every rename is refused and the base file is over the limit, the
    loop of [fileCheck] only ever closes and reopens the file. *)
Lemma fileCheck_spins c i fuel :
  ∀ fe w,
    (∀ t a b, is_Some (faults w t (Rename a b))) →
    (∀ t, faults w t (Stat (path fe)) = None) →
    (∀ t, faults w t (OpenFile (path fe)) = None) →
    names w !! path fe = Some i → FdMaxSize c < fsize w i →
    fd fe = None ∨ (is_Some (fd fe) ∧ FdMaxSize c < ln fe) →
    fileCheck fuel c fe w = None.
Proof.
  induction fuel as [|fuel IH]; intros fe w Hren Hstat Hopen Hi Hsz Hfe; [done|].
  simpl. destruct Hfe as [Hd|[[d Hd] Hln]].
  - rewrite fileCheck_body_closed by done.
    unfold reopen, start_len, os_Stat, os_OpenFile.
    rewrite Hstat, Hi. simpl. rewrite Hopen, Hi. simpl.
    apply IH; simpl; auto.
    all: right; split; [by eexists|done].
  - rewrite (fileCheck_body_over c fe w d) by done.
    set (w1 := (os_Close d w).2).
    assert (moved w (rollOver c (path fe) w1)) as Hm.
    { eapply moved_trans; [apply os_Close_moved|apply rollOver_moved]. }
    apply IH; simpl.
    + intros t a b. rewrite (moved_faults _ _ Hm). apply Hren.
    + intros t. rewrite (moved_faults _ _ Hm). apply Hstat.
    + intros t. rewrite (moved_faults _ _ Hm). apply Hopen.
    + rewrite rollOver_refused; [done|]. intros t a b. apply Hren.
    + unfold fsize. by rewrite (moved_inodes _ _ Hm).
    + by left.
Qed.

(** C6 fails on the code: with ["app.log"] three bytes long, a limit of two
    bytes and a directory that refuses every rename, [fileCheck] has not
    returned after any number of turns of its loop, and neither has the
    [Fire] that called it. *)
Theorem fileCheck_loops_when_rename_fails :
  ∀ fuel,
    fileCheck fuel (small_hook 2 2) (closed_handle "app.log") stuck_world
    = None ∧
    Fire fuel (small_hook 2 2) (info "BBB") stuck_world = NoFuel.
Proof.
  intros fuel.
  assert (∀ w, faults w = faults stuck_world →
               names w = names stuck_world → inodes w = inodes stuck_world →
               fileCheck fuel (small_hook 2 2) (closed_handle "app.log") w
               = None) as Hspin.
  { intros w Hf Hn Hi. apply (fileCheck_spins _ 0%nat).
    - intros t a b. rewrite Hf. simpl. by eexists.
    - intros t. by rewrite Hf.
    - intros t. by rewrite Hf.
    - by rewrite Hn.
    - unfold fsize. rewrite Hi. simpl. lia.
    - by left. }
  split; [by apply Hspin|].
  unfold Fire, fileWrite. simpl. rewrite lookup_empty.
  fold (closed_handle "app.log"). by rewrite Hspin.
Qed.

(** ** Dispatch *)

Lemma fileWrite_unfold fuel hook entry w :
  fileWrite fuel hook entry w =
    match lookup_handle hook entry w with
    | None => Returned (None, hook, w)
    | Some (fe, w) =>
      match fileCheck fuel hook fe w with
      | None => NoFuel
      | Some (Some err, fe, w) =>
        Returned (Some err,
                  set_fls (<[EntryLevel entry := fe]> (fls hook)) hook, w)
      | Some (None, fe, w) =>
        match Format (formatter hook) entry with
        | Err err =>
          Returned (Some err,
                    set_fls (<[EntryLevel entry := fe]> (fls hook)) hook,
                    log_Println err w)
        | Ok msg =>
          let '((n, _), w) := os_FileWrite (fd fe) msg w in
          let fe := set_ln (int64 (ln fe + n)) fe in
          Returned (None,
                    set_fls (<[EntryLevel entry := fe]> (fls hook)) hook, w)
        end
      end
    end.
Proof. reflexivity. Qed.

Lemma Fire_sink hook entry w fuel :
  sink_config hook = true →
  Fire fuel hook entry w =
    match ioWrite hook entry w with
    | Returned (err, w) => Returned (err, hook, w)
    | Panicked => Panicked
    | NoFuel => NoFuel
    end.
Proof. unfold sink_config, Fire. by intros ->. Qed.

Lemma Fire_file hook entry w fuel :
  sink_config hook = false →
  Fire fuel hook entry w =
    if path_config hook then fileWrite fuel hook entry w
    else Returned (None, hook, w).
Proof. unfold sink_config, path_config, Fire. by intros ->. Qed.

Lemma lookup_handle_resolved hook entry w fe w' :
  resolved hook → lookup_handle hook entry w = Some (fe, w') →
  is_Some (map_get (paths hook) (EntryLevel entry)) ∨
  hasDefaultPath hook = true.
Proof.
  intros Hr. unfold lookup_handle.
  destruct (fls hook !! EntryLevel entry) as [fe0|] eqn:Hfe; [by eauto|].
  destruct (map_get (paths hook) (EntryLevel entry)); [by eauto|].
  destruct (hasDefaultPath hook); [by eauto|done].
Qed.

Lemma fileWrite_resolved fuel hook entry w err hook' w' :
  resolved hook →
  fileWrite fuel hook entry w = Returned (err, hook', w') →
  resolved hook'.
Proof.
  intros Hr. rewrite fileWrite_unfold.
  destruct (lookup_handle hook entry w) as [[fe w1]|] eqn:Hl.
  - pose proof (lookup_handle_resolved _ _ _ _ _ Hr Hl) as Hres.
    assert (∀ fe', resolved
              (set_fls (<[EntryLevel entry := fe']> (fls hook)) hook)) as Hset.
    { intros fe' level fe2. simpl.
      destruct (decide (EntryLevel entry = level)) as [<-|Hne]; [done|].
      rewrite lookup_insert_ne by done. apply Hr. }
    destruct (fileCheck fuel hook fe w1) as [[[[e|] fe1] w2]|]; [| |done].
    + intros [= <- <- <-]. apply Hset.
    + destruct (Format (formatter hook) entry).
      * destruct (os_FileWrite (fd fe1) a w2) as [[n e] w3].
        intros [= <- <- <-]. apply Hset.
      * intros [= <- <- <-]. apply Hset.
  - by intros [= <- <- <-].
Qed.

Lemma Fire_resolved fuel hook entry w err hook' w' :
  resolved hook →
  Fire fuel hook entry w = Returned (err, hook', w') →
  resolved hook'.
Proof.
  intros Hr. destruct (sink_config hook) eqn:Hs.
  - rewrite Fire_sink by done.
    destruct (ioWrite hook entry w) as [[e w1]| |]; [|done..].
    by intros [= <- <- <-].
  - rewrite Fire_file by done. destruct (path_config hook).
    + by apply fileWrite_resolved.
    + by intros [= <- <- <-].
Qed.

Lemma reachable_resolved h : reachable h → resolved h.
Proof.
  induction 1 as [fmt0 output f maxsz h Hnew
                 |fmt0 h f h' _ IH Hset|h p _ IH|h wr _ IH
                 |h maxlen maxsize _ IH
                 |fuel h entry w err h' w' _ IH Hfire].
  - assert (fls h = ∅) as Hfls.
    { unfold NewLfsHook, SetFormatter in Hnew.
      repeat case_match; by simplify_eq/=. }
    intros level fe. by rewrite Hfls, lookup_empty.
  - unfold SetFormatter in Hset. repeat case_match; simplify_eq; exact IH.
  - intros level fe Hfe. by right.
  - exact IH.
  - exact IH.
  - by eapply Fire_resolved.
Qed.

(** C9.  In every hook that the exported functions produce, a record
    whose level has no entry in the map in use, when that map has no default
    either, is dropped: [Fire] returns nil at once, in sink mode and in file
    mode, and neither the hook nor the world changes. *)
Theorem Fire_drops_unmapped_level h entry w fuel :
  reachable h →
  no_destination h (EntryLevel entry) →
  Fire fuel h entry w = Returned (None, h, w).
Proof.
  intros Hreach Hno. unfold no_destination in Hno.
  destruct (sink_config h) eqn:Hs.
  - destruct Hno as [Hw Hd]. rewrite Fire_sink by done.
    unfold ioWrite. by rewrite Hw, Hd.
  - destruct Hno as [Hp Hd]. rewrite Fire_file by done.
    destruct (path_config h); [|done].
    rewrite fileWrite_unfold. unfold lookup_handle.
    destruct (fls h !! EntryLevel entry) as [fe|] eqn:Hfe.
    + destruct (reachable_resolved h Hreach _ _ Hfe) as [[p Hp']|Hd'];
        congruence.
    + by rewrite Hp, Hd.
Qed.

Lemma error_path_hook_new :
  NewLfsHook plain (OutPathMap (Some {[ErrorLevel := "error.log"]}))
    (Some plain) [] = Returned error_path_hook.
Proof. reflexivity. Qed.

Lemma error_writer_hook_new :
  NewLfsHook plain (OutWriterMap (Some {[ErrorLevel := 7%nat]}))
    (Some plain) [] = Returned error_writer_hook.
Proof. reflexivity. Qed.

Lemma Fire_drops_unmapped_level_witness :
  Fire 0 error_path_hook (info "AAA") empty_world
  = Returned (None, error_path_hook, empty_world) ∧
  Fire 0 error_writer_hook (info "AAA") empty_world
  = Returned (None, error_writer_hook, empty_world).
Proof.
  split.
  - apply (Fire_drops_unmapped_level error_path_hook (info "AAA")
             empty_world 0%nat).
    + exact (reach_new _ _ _ _ _ error_path_hook_new).
    + split; reflexivity.
  - apply (Fire_drops_unmapped_level error_writer_hook (info "AAA")
             empty_world 0%nat).
    + exact (reach_new _ _ _ _ _ error_writer_hook_new).
    + split; reflexivity.
Defined.

(** ** The two modes *)

Lemma ioWrite_files hook entry w err w' :
  ioWrite hook entry w = Returned (err, w') →
  names w' = names w ∧ inodes w' = inodes w.
Proof.
  unfold ioWrite, os_WriterWrite, log_Println.
  repeat case_match; intros; simplify_eq/=; done.
Qed.

Lemma NewLfsHook_one_mode fmt0 output f maxsz h :
  NewLfsHook fmt0 output f maxsz = Returned h →
  sink_config h && path_config h = false.
Proof.
  unfold NewLfsHook, SetFormatter, sink_config, path_config. intros Hnew.
  repeat case_match; simplify_eq/=; rewrite ?andb_false_r; done.
Qed.

(** C7 (as amended).  A call of [Fire] follows one strategy: [ioWrite]
    whenever a writer map or a default writer is set, and then it touches no
    file and no handle; [fileWrite] only when no writer is configured and a
    path map or a default path is set; nothing otherwise.  [NewLfsHook]
    configures at most one of the two modes.  [SetDefaultWriter] and
    [SetDefaultPath] add their configuration and leave the other mode's
    configuration as it is. *)
Theorem Fire_prefers_writers h entry w fuel :
  (sink_config h = true →
     Fire fuel h entry w =
       match ioWrite h entry w with
       | Returned (err, w) => Returned (err, h, w)
       | Panicked => Panicked
       | NoFuel => NoFuel
       end ∧
     ∀ err h' w', Fire fuel h entry w = Returned (err, h', w') →
       h' = h ∧ names w' = names w ∧ inodes w' = inodes w) ∧
  (sink_config h = false →
     Fire fuel h entry w =
       if path_config h then fileWrite fuel h entry w
       else Returned (None, h, w)) ∧
  (∀ fmt0 output f maxsz h0,
     NewLfsHook fmt0 output f maxsz = Returned h0 →
     sink_config h0 && path_config h0 = false) ∧
  (∀ wr, sink_config (SetDefaultWriter h wr) = true ∧
         path_config (SetDefaultWriter h wr) = path_config h) ∧
  (∀ p, path_config (SetDefaultPath h p) = true ∧
        sink_config (SetDefaultPath h p) = sink_config h).
Proof.
  repeat split.
  - by apply Fire_sink.
  - rewrite Fire_sink in H0 by done.
    destruct (ioWrite h entry w) as [[e w1]| |]; by simplify_eq.
  - rewrite Fire_sink in H0 by done.
    destruct (ioWrite h entry w) as [[e w1]| |] eqn:Hio; simplify_eq.
    by destruct (ioWrite_files _ _ _ _ _ Hio).
  - rewrite Fire_sink in H0 by done.
    destruct (ioWrite h entry w) as [[e w1]| |] eqn:Hio; simplify_eq.
    by destruct (ioWrite_files _ _ _ _ _ Hio).
  - by apply Fire_file.
  - apply NewLfsHook_one_mode.
  - unfold sink_config. simpl. apply orb_true_r.
  - unfold path_config. simpl. apply orb_true_r.
Qed.

(** C7 as stated fails: a hook made for a path map and then given a
    default writer has both configurations, is reachable, and sends the
    record of a level that has a path to the writer, creating no file. *)
Lemma both_modes_configured :
  let h := SetDefaultWriter error_path_hook 7 in
  reachable h ∧ path_config h = true ∧ sink_config h = true ∧
  match Fire 1 h {| EntryLevel := ErrorLevel; Message := "AAA" |}
          empty_world with
  | Returned (err, _, w) =>
    sinks w !! 7%nat = Some (bytes_of "AAA") ∧ names w = ∅
  | _ => False
  end.
Proof.
  split; [|by vm_compute].
  apply reach_SetDefaultWriter.
  exact (reach_new _ _ _ _ _ error_path_hook_new).
Qed.

(** ** Errors of the write *)

(** C2 fails on the code: on a full disk the write of [fileWrite] fails,
    nothing reaches the file, and [Fire] still returns nil; the same record
    sent through [ioWrite] returns the error of the writer. *)
Theorem Fire_file_mode_drops_write_error :
  match Fire 2 (small_hook 10 1024) (info "AAA") disk_full_world with
  | Returned (err, _, w) =>
    err = None ∧
    last (trace w) = Some (Ev (FileWrite 0 (bytes_of "AAA")) (Some ErrIO) 0) ∧
    content w "app.log" = Some []
  | _ => False
  end ∧
  match Fire 2 (SetDefaultWriter (small_hook 10 1024) 7) (info "AAA")
          disk_full_world with
  | Returned (err, _, w) => err = Some ErrIO
  | _ => False
  end.
Proof. by vm_compute. Qed.

(** ** The calls of a check *)

Lemma kept_refl w : kept w w.
Proof. exists []. by rewrite app_nil_r. Qed.

Lemma kept_trans w1 w2 w3 : kept w1 w2 → kept w2 w3 → kept w1 w3.
Proof.
  intros (t1 & H1 & F1) (t2 & H2 & F2). exists (t1 ++ t2).
  rewrite H2, H1, app_assoc. split; [done|by apply Forall_app].
Qed.

Lemma kept_one c e n w w' :
  trace w' = trace w ++ [Ev c e n] → housekeeping (Ev c e n) → kept w w'.
Proof. intros Ht Hk. exists [Ev c e n]. split; [done|by constructor]. Qed.

Lemma os_Stat_kept name w : kept w (os_Stat name w).2.
Proof.
  unfold os_Stat. repeat case_match; simpl; (eapply kept_one; [reflexivity|done]).
Qed.

Lemma os_Rename_kept a b w : kept w (os_Rename a b w).2.
Proof.
  unfold os_Rename. repeat case_match; simpl; (eapply kept_one; [reflexivity|done]).
Qed.

Lemma os_RemoveAll_kept a w : kept w (os_RemoveAll a w).2.
Proof.
  unfold os_RemoveAll. repeat case_match; simpl; (eapply kept_one; [reflexivity|done]).
Qed.

Lemma os_Close_kept d w : kept w (os_Close d w).2.
Proof. unfold os_Close. simpl. eapply kept_one; [reflexivity|done]. Qed.

Lemma os_MkdirAllDir_kept p w : kept w (os_MkdirAllDir p w).2.
Proof.
  unfold os_MkdirAllDir. case_match; simpl;
    (eapply kept_one; [reflexivity|done]).
Qed.

Lemma fileBakLen_loop_kept c p k :
  ∀ i ln w, kept w (fileBakLen_loop k c p i ln w).2.
Proof.
  induction k as [|k IH]; intros i ln w; simpl; [apply kept_refl|].
  destruct (i <=? FdMaxLen c); [|apply kept_refl].
  pose proof (os_Stat_kept (bakName p i) w) as Hk.
  destruct (os_Stat (bakName p i) w) as [r w1]. simpl in Hk.
  destruct (negb (IsNotExist (err_of r))); [|done].
  eapply kept_trans; [exact Hk|apply IH].
Qed.

Lemma fileBakMove_loop_kept c p k :
  ∀ i w, kept w (fileBakMove_loop k c p i w).
Proof.
  induction k as [|k IH]; intros i w; simpl; [apply kept_refl|].
  destruct (i <? FdMaxLen c); [|apply kept_refl].
  pose proof (os_Rename_kept (bakName p (i + 1)) (bakName p i) w) as Hk.
  destruct (os_Rename (bakName p (i + 1)) (bakName p i) w) as [r w1].
  eapply kept_trans; [exact Hk|apply IH].
Qed.

Lemma rollOver_kept c p w : kept w (rollOver c p w).
Proof.
  unfold rollOver.
  pose proof (fileBakLen_loop_kept c p (Z.to_nat (FdMaxLen c)) 1 0 w) as Hk.
  fold (fileBakLen c p w) in Hk.
  destruct (fileBakLen c p w) as [n w1]. simpl in Hk.
  destruct (FdMaxLen c <=? n).
  - eapply kept_trans; [exact Hk|]. unfold fileBakMove.
    pose proof (os_RemoveAll_kept (bakName p 1) w1) as Hk1.
    destruct (os_RemoveAll (bakName p 1) w1) as [r w2].
    eapply kept_trans; [exact Hk1|].
    eapply kept_trans; [apply fileBakMove_loop_kept|apply os_Rename_kept].
  - eapply kept_trans; [exact Hk|apply os_Rename_kept].
Qed.

(** Ensure-open makes two calls; the tracked length comes from the first,
    the error from the second. *)
Lemma reopen_trace p w :
  ∃ e n eo,
    trace (reopen p w) =
      trace w ++ [Ev (Stat p) e n; Ev (OpenFile p) eo 0] ∧
    start_len p w = match e with None => n | Some _ => 0 end ∧
    err_of (os_OpenFile p (os_Stat p w).2).1 = eo.
Proof.
  unfold reopen, start_len, os_Stat, os_OpenFile.
  repeat case_match; simplify_eq/=;
    eexists _, _, _; rewrite <- app_assoc; simpl; done.
Qed.

(** What a turn of the loop does to the trace and the tracked length. *)
Lemma fileCheck_body_account c fe w :
  (kept w (turn_world (fileCheck_body c fe w)) ∧
   ln (turn_handle (fileCheck_body c fe w)) = ln fe) ∨
  (∃ e n eo,
     trace (turn_world (fileCheck_body c fe w)) =
       trace w ++ [Ev (Stat (path fe)) e n; Ev (OpenFile (path fe)) eo 0] ∧
     ln (turn_handle (fileCheck_body c fe w)) =
       match e with None => n | Some _ => 0 end).
Proof.
  destruct (fd fe) as [d|] eqn:Hd.
  - left. destruct (Z.lt_ge_cases (FdMaxSize c) (ln fe)).
    + rewrite (fileCheck_body_over c fe w d) by done. simpl.
      split; [|done].
      eapply kept_trans; [apply os_Close_kept|apply rollOver_kept].
    + rewrite (fileCheck_body_under c fe w d) by done. simpl.
      split; [apply kept_refl|done].
  - right. rewrite fileCheck_body_closed by done.
    destruct (reopen_trace (path fe) w) as (e & n & eo & Ht & Hs & _).
    exists e, n, eo.
    destruct ((os_OpenFile (path fe) (os_Stat (path fe) w).2).1); simpl;
      (split; [exact Ht|exact Hs]).
Qed.

Lemma housekeeping_no_write ev : housekeeping ev → no_write ev.
Proof. unfold housekeeping, no_write. by destruct (ev_call ev). Qed.

Lemma housekeeping_no_open ev : housekeeping ev → no_open ev.
Proof. unfold housekeeping, no_open. by destruct (ev_call ev). Qed.

Lemma fileCheck_body_no_write c fe w :
  ∃ t, trace (turn_world (fileCheck_body c fe w)) = trace w ++ t ∧
       Forall no_write t.
Proof.
  destruct (fileCheck_body_account c fe w)
    as [[(t & Ht & Hf) _]|(e & n & eo & Ht & _)].
  - exists t. split; [done|].
    eapply Forall_impl; [exact Hf|apply housekeeping_no_write].
  - eexists. split; [exact Ht|]. by repeat constructor.
Qed.

Lemma turns_spec c k :
  ∀ fe w fe' w',
    turns k c fe w = Some (fe', w') →
    path fe' = path fe ∧
    (∀ fuel, fileCheck (k + fuel) c fe w = fileCheck fuel c fe' w') ∧
    ∃ t, trace w' = trace w ++ t ∧ Forall no_write t.
Proof.
  induction k as [|k IH]; intros fe w fe' w' Hk; simpl in Hk.
  - simplify_eq. split; [done|]. split; [done|].
    exists []. by rewrite app_nil_r.
  - pose proof (fileCheck_body_path c fe w) as Hp.
    destruct (fileCheck_body_no_write c fe w) as (t1 & Ht1 & Hf1).
    destruct (fileCheck_body c fe w) as [fe1 w1| |] eqn:Hb; [|done..].
    simpl in *. destruct (IH _ _ _ _ Hk) as (Hp' & Hrun & t2 & Ht2 & Hf2).
    split; [congruence|]. split.
    + intros fuel. simpl. by rewrite Hb.
    + exists (t1 ++ t2). rewrite Ht2, Ht1, app_assoc.
      split; [done|by apply Forall_app].
Qed.

(** ** An open that fails *)

Lemma lookup_handle_kept hook entry w fe w' :
  lookup_handle hook entry w = Some (fe, w') → kept w w'.
Proof.
  unfold lookup_handle. repeat case_match; intros; simplify_eq;
    try apply kept_refl.
  all: match goal with
       | H : os_MkdirAllDir ?p ?w = (_, ?w') |- _ =>
         pose proof (os_MkdirAllDir_kept p w) as Hk; rewrite H in Hk;
         exact Hk
       end.
Qed.

(** C8.  Take any ensure-open attempt of a [Fire] in file mode: the handle
    of the level is closed after [k] turns of the loop of [fileCheck] (none
    when the handle is new or was left closed, more after a roll-over), and
    [OpenFile] fails with [e].  Then [Fire] returns [e]; the handle is
    stored closed; no write was made, the failed open being the last call;
    and the next [Fire] for the level finds this closed handle, whose check
    starts with ensure-open again, reading the length of the file anew. *)
Theorem open_error_is_returned hook entry w fe0 w0 k fe_k w_k e fuel :
  sink_config hook = false → path_config hook = true →
  lookup_handle hook entry w = Some (fe0, w0) →
  turns k hook fe0 w0 = Some (fe_k, w_k) →
  fd fe_k = None →
  (os_OpenFile (path fe0) (os_Stat (path fe0) w_k).2).1 = Err e →
  let fe' :=
    {| fd := None; path := path fe0; ln := start_len (path fe0) w_k |} in
  let hook' := set_fls (<[EntryLevel entry := fe']> (fls hook)) hook in
  let w' := reopen (path fe0) w_k in
  Fire (k + S fuel) hook entry w = Returned (Some e, hook', w') ∧
  Forall no_write (since w w') ∧
  last (trace w') = Some (Ev (OpenFile (path fe0)) (Some e) 0) ∧
  (∀ entry2 w2,
     EntryLevel entry2 = EntryLevel entry →
     lookup_handle hook' entry2 w2 = Some (fe', w2) ∧
     fileCheck_body hook' fe' w2 =
       match (os_OpenFile (path fe0) (os_Stat (path fe0) w2).2).1 with
       | Err err =>
         Return err
           {| fd := None; path := path fe0; ln := start_len (path fe0) w2 |}
           (reopen (path fe0) w2)
       | Ok fl =>
         Again
           {| fd := Some fl; path := path fe0;
              ln := start_len (path fe0) w2 |}
           (reopen (path fe0) w2)
       end).
Proof.
  intros Hs Hp Hl Hk Hd Ho fe' hook' w'.
  destruct (turns_spec hook k _ _ _ _ Hk) as (Hpath & Hrun & t & Ht & Hf).
  destruct (lookup_handle_kept _ _ _ _ _ Hl) as (t0 & Ht0 & Hf0).
  destruct (reopen_trace (path fe0) w_k) as (es & n & eo & Ht' & _ & Heo).
  rewrite Ho in Heo. simpl in Heo. subst eo.
  split; [|split; [|split]].
  - rewrite Fire_file by done. rewrite Hp, fileWrite_unfold, Hl, Hrun.
    simpl. rewrite fileCheck_body_closed by done. rewrite Hpath, Ho. done.
  - assert (trace w' =
            trace w ++ t0 ++ t ++
            [Ev (Stat (path fe0)) es n; Ev (OpenFile (path fe0)) (Some e) 0])
      as Hall.
    { unfold w'. rewrite Ht', Ht, Ht0. by rewrite <- !app_assoc. }
    rewrite (since_app _ _ _ Hall). apply Forall_app. split.
    + eapply Forall_impl; [exact Hf0|apply housekeeping_no_write].
    + apply Forall_app. split; [done|by repeat constructor].
  - unfold w'. rewrite Ht'.
    change [Ev (Stat (path fe0)) es n; Ev (OpenFile (path fe0)) (Some e) 0]
      with ([Ev (Stat (path fe0)) es n] ++
            [Ev (OpenFile (path fe0)) (Some e) 0]).
    by rewrite app_assoc, last_snoc.
  - intros entry2 w2 Hlevel. split.
    + unfold lookup_handle, hook'. simpl.
      by rewrite Hlevel, lookup_insert_eq.
    + by rewrite fileCheck_body_closed.
Qed.

Lemma open_error_is_returned_witness :
  let fe' :=
    {| fd := None; path := "app.log";
       ln := start_len "app.log"
               (os_MkdirAllDir "app.log" locked_world).2 |} in
  let hook' := set_fls (<[InfoLevel := fe']> ∅) (small_hook 10 1024) in
  let w' := reopen "app.log" (os_MkdirAllDir "app.log" locked_world).2 in
  Fire 1 (small_hook 10 1024) (info "BBB") locked_world
  = Returned (Some ErrPermission, hook', w') ∧
  Forall no_write (since locked_world w') ∧
  last (trace w') = Some (Ev (OpenFile "app.log") (Some ErrPermission) 0) ∧
  (∀ entry2 w2,
     EntryLevel entry2 = InfoLevel →
     lookup_handle hook' entry2 w2 = Some (fe', w2) ∧
     fileCheck_body hook' fe' w2 =
       match (os_OpenFile "app.log" (os_Stat "app.log" w2).2).1 with
       | Err err =>
         Return err
           {| fd := None; path := "app.log"; ln := start_len "app.log" w2 |}
           (reopen "app.log" w2)
       | Ok fl =>
         Again
           {| fd := Some fl; path := "app.log";
              ln := start_len "app.log" w2 |}
           (reopen "app.log" w2)
       end).
Proof.
  apply (open_error_is_returned (small_hook 10 1024) (info "BBB")
           locked_world (closed_handle "app.log")
           (os_MkdirAllDir "app.log" locked_world).2 0%nat
           (closed_handle "app.log")
           (os_MkdirAllDir "app.log" locked_world).2 ErrPermission 0%nat).
  - reflexivity.
  - reflexivity.
  - reflexivity.
  - reflexivity.
  - reflexivity.
  - reflexivity.
Defined.

(** ** The tracked length *)

Lemma int64_small z : - 2 ^ 63 ≤ z < 2 ^ 63 → int64 z = z.
Proof. intros H. unfold int64. rewrite Z.mod_small; lia. Qed.

Lemma wsum_exact ns :
  ∀ s, - 2 ^ 63 ≤ s → Forall (λ n, 0 ≤ n) ns → s + sumZ ns < 2 ^ 63 →
       wsum s ns = s + sumZ ns.
Proof.
  induction ns as [|n ns IH]; intros s Hs Hpos Hlt; simpl in *; [lia|].
  apply Forall_cons in Hpos as [Hn Hpos].
  assert (0 ≤ sumZ ns) as Hsum.
  { clear -Hpos. induction Hpos; simpl; lia. }
  unfold wsum in *. rewrite int64_small by lia.
  rewrite IH; try done; lia.
Qed.

Lemma writes_app t1 t2 : writes (t1 ++ t2) = writes t1 ++ writes t2.
Proof. apply omap_app. Qed.

Lemma writes_cons ev t :
  writes (ev :: t) =
    match ev_call ev with
    | FileWrite _ _ => ev_n ev :: writes t
    | _ => writes t
    end.
Proof. unfold writes. simpl. by destruct (ev_call ev). Qed.

Lemma writes_housekeeping t : Forall housekeeping t → writes t = [].
Proof.
  induction 1 as [|ev t Hev _ IH]; [done|].
  rewrite writes_cons, IH.
  unfold housekeeping in Hev. by destruct (ev_call ev).
Qed.

Lemma wsum_snoc s ns n : wsum s (ns ++ [n]) = int64 (wsum s ns + n).
Proof. unfold wsum. by rewrite fold_left_app. Qed.

Lemma tracked_kept ln0 t u l :
  tracked ln0 t l → Forall housekeeping u → tracked ln0 (t ++ u) l.
Proof.
  intros [[Hno Hl]|(pre & name & e & n & name' & eo & post & -> & Hno & Hl)] Hu.
  - left. split.
    + apply Forall_app. split; [done|].
      eapply Forall_impl; [exact Hu|apply housekeeping_no_open].
    + by rewrite writes_app, (writes_housekeeping u), app_nil_r.
  - right. exists pre, name, e, n, name', eo, (post ++ u).
    split; [by rewrite <- !app_assoc|]. split.
    + apply Forall_app. split; [done|].
      eapply Forall_impl; [exact Hu|apply housekeeping_no_open].
    + by rewrite writes_app, (writes_housekeeping u), app_nil_r.
Qed.

Lemma tracked_open ln0 t name e n name' eo :
  tracked ln0 (t ++ [Ev (Stat name) e n; Ev (OpenFile name') eo 0])
    (match e with None => n | Some _ => 0 end).
Proof.
  right. exists t, name, e, n, name', eo, [].
  split; [by rewrite app_nil_r|]. split; [constructor|done].
Qed.

Lemma tracked_write ln0 t l i b e n :
  tracked ln0 t l →
  tracked ln0 (t ++ [Ev (FileWrite i b) e n]) (int64 (l + n)).
Proof.
  intros [[Hno Hl]|(pre & name & e' & n' & name' & eo & post & -> & Hno & Hl)].
  - left. split.
    + apply Forall_app. split; [done|]. by repeat constructor.
    + rewrite writes_app. simpl. by rewrite wsum_snoc, Hl.
  - right. exists pre, name, e', n', name', eo, (post ++ [Ev (FileWrite i b) e n]).
    split; [by rewrite <- !app_assoc|]. split.
    + apply Forall_app. split; [done|]. by repeat constructor.
    + rewrite writes_app. simpl. by rewrite wsum_snoc, Hl.
Qed.

Lemma fileCheck_tracked c fuel :
  ∀ fe w r fe' w' ln0 t0,
    fileCheck fuel c fe w = Some (r, fe', w') →
    tracked ln0 t0 (ln fe) →
    ∃ t, trace w' = trace w ++ t ∧ tracked ln0 (t0 ++ t) (ln fe') ∧
         (r = None → is_Some (fd fe')).
Proof.
  induction fuel as [|fuel IH]; intros fe w r fe' w' ln0 t0 Hrun Htr; [done|].
  simpl in Hrun.
  pose proof (fileCheck_body_account c fe w) as Hacc.
  assert (∀ fe1 w1, fileCheck_body c fe w = Break fe1 w1 → is_Some (fd fe1))
    as Hbreak.
  { intros fe1 w1. destruct (fd fe) as [d|] eqn:Hd.
    - destruct (Z.lt_ge_cases (FdMaxSize c) (ln fe)).
      + by rewrite (fileCheck_body_over c fe w d).
      + rewrite (fileCheck_body_under c fe w d) by done.
        intros [= <- <-]. by rewrite Hd.
    - rewrite fileCheck_body_closed by done.
      by destruct ((os_OpenFile (path fe) (os_Stat (path fe) w).2).1). }
  assert (∃ t1, trace (turn_world (fileCheck_body c fe w)) = trace w ++ t1 ∧
                tracked ln0 (t0 ++ t1)
                  (ln (turn_handle (fileCheck_body c fe w)))) as (t1 & Ht1 & Htr1).
  { destruct Hacc as [[(t1 & Ht1 & Hf1) Hln]|(e & n & eo & Ht1 & Hln)].
    - exists t1. split; [done|]. rewrite Hln. by apply tracked_kept.
    - eexists. split; [exact Ht1|]. rewrite Hln. apply tracked_open. }
  destruct (fileCheck_body c fe w) as [fe1 w1|fe1 w1|err fe1 w1] eqn:Hb;
    simpl in *.
  - destruct (IH _ _ _ _ _ ln0 (t0 ++ t1) Hrun Htr1) as (t2 & Ht2 & Htr2 & Hfd).
    exists (t1 ++ t2). rewrite Ht2, Ht1, !app_assoc. by repeat split.
  - simplify_eq. exists t1. repeat split; try done. intros _. by eapply Hbreak.
  - simplify_eq. exists t1. by repeat split.
Qed.

Lemma lookup_handle_ln hook entry w fe w' :
  lookup_handle hook entry w = Some (fe, w') →
  ln fe = handle_ln hook (EntryLevel entry).
Proof.
  unfold lookup_handle, handle_ln.
  destruct (fls hook !! EntryLevel entry) as [fe0|]; simpl.
  - by intros [= <- <-].
  - repeat case_match; intros; by simplify_eq.
Qed.

Lemma os_FileWrite_trace i b w n e w' :
  os_FileWrite (Some i) b w = ((n, e), w') →
  trace w' = trace w ++ [Ev (FileWrite i b) e n].
Proof.
  unfold os_FileWrite. case_match; intros; by simplify_eq.
Qed.

Lemma handle_ln_set hook level fe :
  handle_ln (set_fls (<[level := fe]> (fls hook)) hook) level = ln fe.
Proof. unfold handle_ln. simpl. by rewrite lookup_insert_eq. Qed.

Lemma Fire_tracked fuel hook entry w err hook1 w1 ln0 t0 :
  sink_config hook = false →
  Fire fuel hook entry w = Returned (err, hook1, w1) →
  tracked ln0 t0 (handle_ln hook (EntryLevel entry)) →
  sink_config hook1 = false ∧
  ∃ t, trace w1 = trace w ++ t ∧
       tracked ln0 (t0 ++ t) (handle_ln hook1 (EntryLevel entry)).
Proof.
  intros Hs Hfire Htr. rewrite Fire_file in Hfire by done.
  assert (∀ h w0 (e0 : option error),
            Returned (e0, h, w0) = Returned (err, hook1, w1) →
            h = hook → w0 = w →
            sink_config hook1 = false ∧
            ∃ t, trace w1 = trace w ++ t ∧
                 tracked ln0 (t0 ++ t) (handle_ln hook1 (EntryLevel entry)))
    as Hsame.
  { intros h w0 e0 [= <- <- <-] -> ->. split; [done|].
    exists []. by rewrite !app_nil_r. }
  destruct (path_config hook); [|by eapply Hsame].
  rewrite fileWrite_unfold in Hfire.
  destruct (lookup_handle hook entry w) as [[fe w0]|] eqn:Hl;
    [|by eapply Hsame].
  destruct (lookup_handle_kept _ _ _ _ _ Hl) as (tk & Htk & Hfk).
  rewrite <- (lookup_handle_ln _ _ _ _ _ Hl) in Htr.
  pose proof (tracked_kept _ _ _ _ Htr Hfk) as Htr0.
  destruct (fileCheck fuel hook fe w0) as [[[r fe1] w2]|] eqn:Hc; [|done].
  destruct (fileCheck_tracked _ _ _ _ _ _ _ _ _ Hc Htr0)
    as (t2 & Ht2 & Htr2 & Hfd).
  destruct r as [e1|].
  - injection Hfire as <- <- <-. split; [done|].
    exists (tk ++ t2). rewrite handle_ln_set, Ht2, Htk, !app_assoc. done.
  - destruct (Hfd eq_refl) as [i Hi].
    destruct (Format (formatter hook) entry) as [msg|e1].
    + rewrite Hi in Hfire.
      destruct (os_FileWrite (Some i) msg w2) as [[n e2] w3] eqn:Hw.
      injection Hfire as <- <- <-. split; [done|].
      exists (tk ++ t2 ++ [Ev (FileWrite i msg) e2 n]).
      rewrite handle_ln_set. simpl.
      rewrite (os_FileWrite_trace _ _ _ _ _ _ Hw), Ht2, Htk, !app_assoc.
      split; [done|]. by apply tracked_write.
    + injection Hfire as <- <- <-. split; [done|].
      exists (tk ++ t2 ++ [Ev (Println e1) None 0]).
      rewrite handle_ln_set. simpl. rewrite Ht2, Htk, !app_assoc.
      split; [done|]. apply tracked_kept; [done|]. by repeat constructor.
Qed.

Lemma fireAll_tracked fuel level es :
  ∀ hook w errs hook' w' ln0 t0,
    sink_config hook = false →
    Forall (λ entry, EntryLevel entry = level) es →
    fireAll fuel hook es w = Returned (errs, hook', w') →
    tracked ln0 t0 (handle_ln hook level) →
    ∃ t, trace w' = trace w ++ t ∧
         tracked ln0 (t0 ++ t) (handle_ln hook' level).
Proof.
  induction es as [|entry es IH];
    intros hook w errs hook' w' ln0 t0 Hs Hlv Hrun Htr; simpl in Hrun.
  - simplify_eq. exists []. by rewrite !app_nil_r.
  - apply Forall_cons in Hlv as [Hl Hlv].
    destruct (Fire fuel hook entry w) as [[[e1 hook1] w1]| |] eqn:Hf; [|done..].
    destruct (fireAll fuel hook1 es w1) as [[[errs1 hook2] w2]| |] eqn:Hr;
      [|done..].
    simplify_eq.
    destruct (Fire_tracked _ _ _ _ _ _ _ ln0 t0 Hs Hf Htr)
      as (Hs1 & t1 & Ht1 & Htr1).
    destruct (IH _ _ _ _ _ ln0 (t0 ++ t1) Hs1 Hlv Hr Htr1)
      as (t2 & Ht2 & Htr2).
    exists (t1 ++ t2). rewrite Ht2, Ht1, !app_assoc. done.
Qed.

(** C5 (as amended).  After any sequence of [Fire] calls for one level in
    file mode, the tracked length of the handle of that level is the length
    that the [Stat] of its last ensure-open reported (the size of the file
    found there, 0 when [Stat] failed) plus the byte counts that the writes
    since then reported as written; when no ensure-open took place it is the
    tracked length from before plus those counts.  The additions are [int64]
    additions, and the plain sum as long as that stays below [2^63]. *)
Theorem tracked_length_accounts fuel hook level es w errs hook' w' :
  sink_config hook = false →
  Forall (λ entry, EntryLevel entry = level) es →
  fireAll fuel hook es w = Returned (errs, hook', w') →
  tracked (handle_ln hook level) (since w w') (handle_ln hook' level) ∧
  (∀ start ns,
     handle_ln hook' level = wsum start ns →
     - 2 ^ 63 ≤ start → Forall (λ n, 0 ≤ n) ns → start + sumZ ns < 2 ^ 63 →
     handle_ln hook' level = start + sumZ ns).
Proof.
  intros Hs Hlv Hrun. split.
  - destruct (fireAll_tracked fuel level es hook w errs hook' w'
                (handle_ln hook level) [] Hs Hlv Hrun) as (t & Ht & Htr).
    { left. split; [constructor|done]. }
    by rewrite (since_app _ _ _ Ht).
  - intros start ns -> Hstart Hpos Hlt. by apply wsum_exact.
Qed.

Lemma tracked_length_accounts_witness :
  ∃ errs hook' w',
    fireAll 2 (small_hook 10 1024) [info "BB"; info "CCC"] short_write_world
    = Returned (errs, hook', w') ∧
    writes (since short_write_world w') = [1; 1] ∧
    content w' "app.log" = Some (bytes_of "AAABC") ∧
    handle_ln hook' InfoLevel = 5 ∧
    tracked (handle_ln (small_hook 10 1024) InfoLevel)
      (since short_write_world w') (handle_ln hook' InfoLevel).
Proof.
  eexists _, _, _. split; [reflexivity|]. split; [reflexivity|].
  split; [reflexivity|]. split; [reflexivity|].
  eapply proj1.
  eapply (tracked_length_accounts 2 (small_hook 10 1024) InfoLevel
            [info "BB"; info "CCC"] short_write_world).
  - reflexivity.
  - repeat constructor.
  - reflexivity.
Defined.

(** C5 as stated fails: the handle is created for a file that already
    holds three bytes, two bytes are written, and the tracked length is 5,
    not the 2 that were written since the handle was created and opened. *)
Lemma tracked_length_counts_existing_bytes :
  match Fire 2 (small_hook 10 1024) (info "BB") one_file_world with
  | Returned (_, hook', w') =>
    fls (small_hook 10 1024) !! InfoLevel = None ∧
    writes (since one_file_world w') = [2] ∧
    handle_ln hook' InfoLevel = 5 ∧
    handle_ln hook' InfoLevel ≠ sumZ (writes (since one_file_world w'))
  | _ => False
  end.
Proof. vm_compute. repeat split; try reflexivity. discriminate. Qed.

(** * Further properties *)

(** ** What a check returns *)

Lemma fileCheck_path c fuel :
  ∀ fe w r fe' w',
    fileCheck fuel c fe w = Some (r, fe', w') → path fe' = path fe.
Proof.
  induction fuel as [|fuel IH]; intros fe w r fe' w' Hrun; [done|].
  simpl in Hrun. pose proof (fileCheck_body_path c fe w) as Hp.
  destruct (fileCheck_body c fe w) as [fe1 w1|fe1 w1|err fe1 w1];
    simpl in *; simplify_eq; try done.
  rewrite <- Hp. by eapply IH.
Qed.

(** X1.  Whatever the file system does: when [fileCheck] returns nil the handle
    is open and its tracked length is within the limit; when it returns an
    error the handle is closed. *)
Theorem fileCheck_result c fuel fe w r fe' w' :
  fileCheck fuel c fe w = Some (r, fe', w') →
  path fe' = path fe ∧
  match r with
  | None => is_Some (fd fe') ∧ ln fe' ≤ FdMaxSize c
  | Some _ => fd fe' = None
  end.
Proof.
  intros Hrun. split; [by eapply fileCheck_path|].
  revert fe w Hrun. induction fuel as [|fuel IH]; intros fe w Hrun; [done|].
  simpl in Hrun. destruct (fd fe) as [d|] eqn:Hd.
  - destruct (Z.lt_ge_cases (FdMaxSize c) (ln fe)).
    + rewrite (fileCheck_body_over c fe w d) in Hrun by done. by eapply IH.
    + rewrite (fileCheck_body_under c fe w d) in Hrun by done.
      simplify_eq. split; [by rewrite Hd|done].
  - rewrite fileCheck_body_closed in Hrun by done.
    destruct ((os_OpenFile (path fe) (os_Stat (path fe) w).2).1).
    + by eapply IH.
    + by simplify_eq.
Qed.

Lemma fileCheck_result_witness :
  ∃ fe' w',
    fileCheck 2 (small_hook 2 2) (closed_handle "app.log") empty_world
    = Some (None, fe', w') ∧
    path fe' = "app.log" ∧ is_Some (fd fe') ∧ ln fe' ≤ 2.
Proof.
  eexists _, _. split; [reflexivity|].
  eapply (fileCheck_result (small_hook 2 2) 2 (closed_handle "app.log")
            empty_world None).
  reflexivity.
Defined.

(** ** What [Fire] leaves alone *)








Lemma lookup_handle_files hook entry w fe w0 :
  lookup_handle hook entry w = Some (fe, w0) →
  names w0 = names w ∧ inodes w0 = inodes w ∧ sinks w0 = sinks w ∧
  faults w0 = faults w.
Proof.
  unfold lookup_handle, os_MkdirAllDir.
  repeat case_match; intros; by simplify_eq/=.
Qed.




(** X3.  A [Fire] that returns has changed nothing in the configuration of the
    hook, has left the handles of the other levels as they were, and has
    kept the path of the handle of its own level. *)
Theorem Fire_keeps_configuration fuel hook entry w err hook' w' :
  Fire fuel hook entry w = Returned (err, hook', w') →
  paths hook' = paths hook ∧ writers hook' = writers hook ∧
  levels hook' = levels hook ∧ formatter hook' = formatter hook ∧
  defaultPath hook' = defaultPath hook ∧
  defaultWriter hook' = defaultWriter hook ∧
  hasDefaultPath hook' = hasDefaultPath hook ∧
  hasDefaultWriter hook' = hasDefaultWriter hook ∧
  FdMaxLen hook' = FdMaxLen hook ∧ FdMaxSize hook' = FdMaxSize hook ∧
  (∀ level, level ≠ EntryLevel entry →
            fls hook' !! level = fls hook !! level) ∧
  (∀ fe, fls hook !! EntryLevel entry = Some fe →
         ∃ fe', fls hook' !! EntryLevel entry = Some fe' ∧
                path fe' = path fe).
Proof.
  intros Hfire.
  assert (hook' = hook ∨
          ∃ fe0 w0 fe', lookup_handle hook entry w = Some (fe0, w0) ∧
            path fe' = path fe0 ∧
            hook' = set_fls (<[EntryLevel entry := fe']> (fls hook)) hook)
    as [->|(fe0 & w0 & fe' & Hl & Hp & ->)].
  { destruct (sink_config hook) eqn:Hs.
    - rewrite Fire_sink in Hfire by done.
      destruct (ioWrite hook entry w) as [[e w1]| |]; simplify_eq. by left.
    - rewrite Fire_file in Hfire by done.
      destruct (path_config hook); [|simplify_eq; by left].
      rewrite fileWrite_unfold in Hfire.
      destruct (lookup_handle hook entry w) as [[fe0 w0]|] eqn:Hl;
        [|simplify_eq; by left].
      destruct (fileCheck fuel hook fe0 w0) as [[[r fe1] w1]|] eqn:Hc; [|done].
      pose proof (fileCheck_path _ _ _ _ _ _ _ Hc) as Hp.
      right. exists fe0, w0.
      destruct r as [e1|]; [simplify_eq; exists fe1; by repeat split|].
      destruct (Format (formatter hook) entry) as [msg|e1].
      + destruct (os_FileWrite (fd fe1) msg w1) as [[n e2] w2].
        simpl in Hfire. simplify_eq.
        exists (set_ln (int64 (ln fe1 + n)) fe1). by repeat split.
      + simplify_eq. exists fe1. by repeat split. }
  - repeat split; try done. intros fe Hfe. by exists fe.
  - repeat split; try done; simpl.
    + intros level Hne. by rewrite lookup_insert_ne.
    + intros fe Hfe. exists fe'. rewrite lookup_insert_eq. split; [done|].
      unfold lookup_handle in Hl. rewrite Hfe in Hl. by simplify_eq.
Qed.

Lemma Fire_keeps_configuration_witness :
  ∃ err hook' w',
    Fire 2 (small_hook 10 1024) (info "BB") full_world
    = Returned (err, hook', w') ∧
    paths hook' = None ∧ hasDefaultPath hook' = true ∧
    FdMaxLen hook' = 10 ∧ FdMaxSize hook' = 1024 ∧
    ∀ level, level ≠ InfoLevel →
             fls hook' !! level = fls (small_hook 10 1024) !! level.
Proof.
  eexists _, _, _. split; [reflexivity|].
  edestruct (Fire_keeps_configuration 2 (small_hook 10 1024) (info "BB")
               full_world)
    as (Hp & _ & _ & _ & _ & _ & Hd & _ & Hl & Hs & Hfls & _).
  - reflexivity.
  - split; [exact Hp|]. split; [exact Hd|]. split; [exact Hl|].
    split; [exact Hs|exact Hfls].
Defined.

(** ** Construction *)


(** X6.  The [levels] that [NewLfsHook] collects from a map are its keys, each
    once; [Levels] does not look at them. *)
Theorem NewLfsHook_levels fmt0 f maxsz :
  (∀ m h, NewLfsHook fmt0 (OutPathMap (Some m)) f maxsz = Returned h →
          NoDup (levels h) ∧
          ∀ level, level ∈ levels h ↔ is_Some (m !! level)) ∧
  (∀ m h, NewLfsHook fmt0 (OutWriterMap (Some m)) f maxsz = Returned h →
          NoDup (levels h) ∧
          ∀ level, level ∈ levels h ↔ is_Some (m !! level)) ∧
  (∀ output h, NewLfsHook fmt0 output f maxsz = Returned h →
               Levels h = AllLevels).
Proof.
  assert (∀ V (m : gmap N V),
            NoDup (keys (Some m)) ∧
            ∀ level, level ∈ keys (Some m) ↔ is_Some (m !! level)) as Hkeys.
  { intros V m. simpl. split; [apply NoDup_fst_map_to_list|].
    intros level. rewrite list_elem_of_fmap. split.
    - intros ([k v] & -> & Hin). apply elem_of_map_to_list in Hin. by eexists.
    - intros [v Hv]. exists (level, v). split; [done|].
      by apply elem_of_map_to_list. }
  split; [|split].
  - intros m h. unfold NewLfsHook, SetFormatter. intros Hnew.
    repeat case_match; simplify_eq/=; apply Hkeys.
  - intros m h. unfold NewLfsHook, SetFormatter. intros Hnew.
    repeat case_match; simplify_eq/=; apply Hkeys.
  - done.
Qed.

(** ** Chains with a gap, without a base file, without room *)

Lemma fileBakLen_loop_gap c p k0 k :
  ∀ i ln w,
    quiet w → 1 ≤ i ≤ k0 + 1 → k0 < FdMaxLen c →
    (∀ j, i ≤ j ≤ k0 → is_Some (names w !! bakName p j)) →
    names w !! bakName p (k0 + 1) = None →
    Z.of_nat k = FdMaxLen c - i + 1 →
    (fileBakLen_loop k c p i ln w).1 = ln + (k0 - i + 1).
Proof.
  induction k as [|k IH]; intros i ln w Hq Hi HM Hex Hgap Hk; simpl; [lia|].
  destruct (Z.leb_spec i (FdMaxLen c)); [|lia].
  rewrite os_Stat_quiet by done.
  destruct (decide (i = k0 + 1)) as [->|Hne].
  - rewrite Hgap. simpl. lia.
  - destruct (Hex i) as [x Hx]; [lia|]. rewrite Hx. simpl.
    rewrite IH; try done; try lia. intros j Hj. apply Hex. lia.
Qed.

Lemma fileBakLen_loop_all c p k :
  ∀ i ln w,
    quiet w →
    (∀ j, i ≤ j ≤ FdMaxLen c → is_Some (names w !! bakName p j)) →
    Z.of_nat k = FdMaxLen c - i + 1 →
    (fileBakLen_loop k c p i ln w).1 = ln + Z.of_nat k.
Proof.
  induction k as [|k IH]; intros i ln w Hq Hex Hk; simpl; [lia|].
  destruct (Z.leb_spec i (FdMaxLen c)); [|lia].
  rewrite os_Stat_quiet by done.
  destruct (Hex i) as [x Hx]; [lia|]. rewrite Hx. simpl.
  rewrite IH; try done; try lia. intros j Hj. apply Hex. lia.
Qed.

(** X7.  In a quiet world [fileBakLen] counts the backups [1 .. k] that exist
    without a gap and stops at the first suffix that is free, whatever lies
    beyond it, or at [FdMaxLen].  The roll-over then renames the base file to
    that first free suffix and leaves every other backup where it is. *)
Theorem fileBakLen_stops_at_gap c p k0 w :
  quiet w → 0 ≤ k0 →
  (∀ j, 1 ≤ j ≤ k0 → is_Some (names w !! bakName p j)) →
  (FdMaxLen c ≤ k0 → (fileBakLen c p w).1 = Z.max 0 (FdMaxLen c)) ∧
  (k0 < FdMaxLen c → names w !! bakName p (k0 + 1) = None →
   (fileBakLen c p w).1 = k0 ∧
   ∀ ib, names w !! p = Some ib →
     names (rollOver c p w) !! bakName p (k0 + 1) = Some ib ∧
     names (rollOver c p w) !! p = None ∧
     ∀ j, j ≠ k0 + 1 →
          names (rollOver c p w) !! bakName p j = names w !! bakName p j).
Proof.
  intros Hq Hk0 Hex. split.
  - intros HM. unfold fileBakLen.
    destruct (decide (0 ≤ FdMaxLen c)) as [Hpos|Hneg].
    + rewrite fileBakLen_loop_all; try done; try lia.
      intros j Hj. apply Hex. lia.
    + replace (Z.to_nat (FdMaxLen c)) with 0%nat by lia. simpl. lia.
  - intros HM Hgap.
    assert ((fileBakLen c p w).1 = k0) as Hlen.
    { unfold fileBakLen.
      rewrite (fileBakLen_loop_gap c p k0); try done; lia. }
    split; [done|]. intros ib Hp. unfold rollOver.
    destruct (fileBakLen_frame c p w) as (t & Ht & _).
    destruct (fileBakLen c p w) as [n w1]. simpl in Ht, Hlen. subst w1 n.
    destruct (Z.leb_spec (FdMaxLen c) k0); [lia|].
    rewrite os_Rename_quiet by done. simpl. rewrite Hp.
    split; [by rewrite lookup_insert_eq|]. split.
    + rewrite lookup_insert_ne by (intros ?; by eapply bakName_ne).
      by rewrite lookup_delete_eq.
    + intros j Hj.
      rewrite lookup_insert_ne by (intros ?%bakName_inj; lia).
      by rewrite lookup_delete_ne by (intros ?; by eapply bakName_ne).
Qed.

Lemma fileBakLen_stops_at_gap_witness :
  (fileBakLen (small_hook 3 2) "app.log" gap_world).1 = 1 ∧
  names (rollOver (small_hook 3 2) "app.log" gap_world)
    !! bakName "app.log" 2 = Some 0%nat ∧
  names (rollOver (small_hook 3 2) "app.log" gap_world)
    !! bakName "app.log" 3 = Some 2%nat.
Proof.
  destruct (fileBakLen_stops_at_gap (small_hook 3 2) "app.log" 1 gap_world)
    as [_ Hgap].
  - intros t c. reflexivity.
  - lia.
  - intros j Hj. replace j with 1 by lia. by eexists.
  - destruct Hgap as [Hlen Hroll]; [simpl; lia|reflexivity|].
    destruct (Hroll 0%nat eq_refl) as (H2 & _ & Hrest).
    split; [exact Hlen|]. split; [exact H2|].
    rewrite (Hrest 3) by lia. reflexivity.
Defined.

Lemma fileBakMove_shifted c p ids w :
  quiet w → 1 ≤ FdMaxLen c → chained (names w) p ids →
  shifted (names (fileBakMove c p w)) p ids (FdMaxLen c).
Proof.
  intros Hq HM Hc. unfold fileBakMove.
  pose proof (os_RemoveAll_moved (bakName p 1) w) as Hm1.
  pose proof (os_RemoveAll_quiet (bakName p 1) w Hq) as Hn1.
  destruct (os_RemoveAll (bakName p 1) w) as [e w1]. simpl in *.
  apply fileBakMove_loop_shifted; [by eapply moved_quiet| |lia|lia].
  intros j. rewrite Hn1. pose proof (Hc j) as Hj.
  repeat case_decide; try lia.
  - subst j. by rewrite lookup_delete_eq.
  - by rewrite lookup_delete_ne by (intros ?%bakName_inj; lia).
  - by rewrite lookup_delete_ne by (intros ?%bakName_inj; lia).
Qed.

Lemma rollOver_without_base c p ids w :
  quiet w → 1 ≤ FdMaxLen c →
  chained (names w) p ids → Z.of_nat (length ids) ≤ FdMaxLen c →
  names w !! p = None →
  chained (names (rollOver c p w)) p
    (if decide (Z.of_nat (length ids) = FdMaxLen c) then drop 1 ids else ids).
Proof.
  intros Hq HM Hc Hlen Hp. unfold rollOver.
  destruct (fileBakLen_chained c p ids w) as (t & ->); try done.
  destruct (Z.leb_spec (FdMaxLen c) (Z.of_nat (length ids))) as [Hfull|Hroom].
  - rewrite decide_True by lia.
    destruct (fileBakMove_spec c p p (extend t w)) as (Hm & Hfp & _).
    { intros j ?. by eapply bakName_ne. }
    pose proof (fileBakMove_shifted c p ids (extend t w) Hq HM Hc) as Hs.
    rewrite os_Rename_quiet by (by eapply moved_quiet).
    simpl in Hfp. rewrite Hfp, Hp.
    intros j. rewrite (Hs j), lookup_drop.
    repeat case_decide; try lia; try done.
    + f_equal. lia.
    + subst j. symmetry. apply lookup_ge_None. lia.
    + rewrite lookup_ge_None_2 by lia. symmetry. apply lookup_ge_None. lia.
  - rewrite decide_False by lia.
    rewrite os_Rename_quiet by done. simpl. by rewrite Hp.
Qed.

(** X8.  When the base file is gone (removed or renamed behind the back of an
    open handle that is over the limit), the roll-over is no error: a new
    base file is opened.  A chain with room is left as it is, but a full
    chain still loses its oldest backup, although none is added. *)
Theorem rotation_without_base_file c fe d w cs fuel :
  quiet w → 1 ≤ FdMaxLen c → 0 ≤ FdMaxSize c →
  fd fe = Some d → FdMaxSize c < ln fe →
  backups_are w (path fe) cs → Z.of_nat (length cs) ≤ FdMaxLen c →
  names w !! path fe = None →
  ∃ fe' w',
    fileCheck (S (S (S fuel))) c fe w = Some (None, fe', w') ∧
    ln fe' = 0 ∧ content w' (path fe) = Some [] ∧
    backups_are w' (path fe)
      (if decide (Z.of_nat (length cs) = FdMaxLen c) then drop 1 cs else cs).
Proof.
  intros Hq HM Hmax Hd Hln (ids & Hc & Hf) Hlen Hp.
  set (w1 := (os_Close d w).2).
  assert (quiet w1) as Hq1 by (eapply moved_quiet; [apply os_Close_moved|done]).
  pose proof (rollOver_moved c (path fe) w1) as Hm.
  assert (quiet (rollOver c (path fe) w1)) as Hq2 by (by eapply moved_quiet).
  pose proof (rollOver_base_gone c (path fe) w1 Hq1) as Hgone.
  destruct (reopen_fresh _ _ Hq2 Hgone) as (_ & _ & Hn & Hi & _).
  assert (Z.of_nat (length ids) ≤ FdMaxLen c) as Hlen'
    by (by rewrite (Forall2_length _ _ _ Hf)).
  pose proof (rollOver_without_base c (path fe) ids w1 Hq1 HM Hc Hlen' Hp)
    as Hc'.
  eexists _, _. split; [by apply fileCheck_rotate|]. split; [done|].
  fold w1. split.
  - unfold content. rewrite Hn, lookup_insert_eq. simpl.
    rewrite Hi. by rewrite list_lookup_middle.
  - assert (Forall2 (λ i x, inodes (reopen (path fe)
                                      (rollOver c (path fe) w1)) !! i
                            = Some x) ids cs) as Hf'.
    { eapply Forall2_impl; [exact Hf|]. intros i x Hx. simpl in Hx.
      rewrite Hi, (moved_inodes _ _ Hm). by apply lookup_app_l_Some. }
    rewrite (Forall2_length _ _ _ Hf) in Hc'.
    destruct (decide (Z.of_nat (length cs) = FdMaxLen c)).
    + exists (drop 1 ids). split; [|by apply Forall2_drop].
      intros j. rewrite Hn.
      rewrite lookup_insert_ne by (intros ?; by eapply bakName_ne). apply Hc'.
    + exists ids. split; [|done].
      intros j. rewrite Hn.
      rewrite lookup_insert_ne by (intros ?; by eapply bakName_ne). apply Hc'.
Qed.

Lemma rotation_without_base_file_witness :
  ∃ fe' w',
    fileCheck 3 (small_hook 1 2) (open_handle 3) orphan_world
    = Some (None, fe', w') ∧
    ln fe' = 0 ∧ content w' "app.log" = Some [] ∧
    backups_are w' "app.log"
      (if decide (Z.of_nat (length [bytes_of "XXX"]) = 1)
       then drop 1 [bytes_of "XXX"] else [bytes_of "XXX"]).
Proof.
  apply (rotation_without_base_file (small_hook 1 2) (open_handle 3) 0%nat
           orphan_world [bytes_of "XXX"] 0%nat).
  - intros t c. reflexivity.
  - simpl. lia.
  - simpl. lia.
  - reflexivity.
  - simpl. lia.
  - exists [0%nat]. split; [|by repeat constructor]. intros j. simpl.
    destruct (decide (j = 1)) as [->|Hj]; [done|].
    rewrite lookup_singleton_ne
      by (intros H; by apply (bakName_inj "app.log" 1 j) in H).
    case_decide; [|done]. symmetry. apply lookup_ge_None. simpl. lia.
  - simpl. lia.
  - reflexivity.
Defined.

(** X9.  With [FdMaxLen] set to zero or below, a roll-over in a quiet world
    removes [path.1] and renames the base file to [path.0]: one backup is
    still kept, at suffix 0, and each roll-over replaces it. *)
Theorem rollOver_without_room c p ib w :
  quiet w → FdMaxLen c ≤ 0 → names w !! p = Some ib →
  names (rollOver c p w) !! bakName p 0 = Some ib ∧
  names (rollOver c p w) !! bakName p 1 = None ∧
  names (rollOver c p w) !! p = None ∧
  ∀ q, q ≠ p → q ≠ bakName p 0 → q ≠ bakName p 1 →
       names (rollOver c p w) !! q = names w !! q.
Proof.
  intros Hq HM Hp. unfold rollOver, fileBakLen, fileBakMove.
  replace (Z.to_nat (FdMaxLen c)) with 0%nat by lia.
  replace (Z.to_nat (FdMaxLen c - 1)) with 0%nat by lia. simpl.
  destruct (Z.leb_spec (FdMaxLen c) 0); [|lia].
  pose proof (os_RemoveAll_moved (bakName p 1) w) as Hm.
  pose proof (os_RemoveAll_quiet (bakName p 1) w Hq) as Hn.
  destruct (os_RemoveAll (bakName p 1) w) as [e w1]. simpl in *.
  rewrite os_Rename_quiet by (by eapply moved_quiet).
  rewrite Hn, lookup_delete_ne, Hp by (by apply bakName_ne).
  split; [by rewrite lookup_insert_eq|]. split; [|split].
  - rewrite lookup_insert_ne by (intros ?%bakName_inj; lia).
    rewrite lookup_delete_ne by (intros ?; by eapply bakName_ne).
    by rewrite lookup_delete_eq.
  - rewrite lookup_insert_ne by (intros ?; by eapply bakName_ne).
    by rewrite lookup_delete_eq.
  - intros q H1 H2 H3. rewrite lookup_insert_ne by done.
    rewrite lookup_delete_ne by done. by rewrite lookup_delete_ne.
Qed.

Lemma rollOver_without_room_witness :
  names (rollOver (small_hook 0 2) "app.log" full_world)
    !! bakName "app.log" 0 = Some 0%nat ∧
  names (rollOver (small_hook 0 2) "app.log" full_world)
    !! bakName "app.log" 1 = None ∧
  names (rollOver (small_hook 0 2) "app.log" full_world) !! "app.log" = None ∧
  ∀ q, q ≠ "app.log" → q ≠ bakName "app.log" 0 → q ≠ bakName "app.log" 1 →
       names (rollOver (small_hook 0 2) "app.log" full_world) !! q
       = names full_world !! q.
Proof.
  apply (rollOver_without_room (small_hook 0 2) "app.log" 0%nat full_world).
  - intros t c. reflexivity.
  - simpl. lia.
  - reflexivity.
Defined.

(** ** A write in a quiet world *)

Lemma os_FileWrite_quiet i b w :
  quiet w →
  os_FileWrite (Some i) b w =
    ((Z.of_nat (length b), None),
     record (FileWrite i b) None (Z.of_nat (length b))
       (set_inodes (alter (append_to b) i (inodes w)) w)).
Proof. intros Hq. unfold os_FileWrite. by rewrite Hq. Qed.

Lemma in_sync_content fe w :
  in_sync fe w →
  ∃ b, content w (path fe) = Some b ∧ ln fe = Z.of_nat (length b).
Proof.
  intros (i & b & _ & Hn & Hi & Hl). exists b. unfold content.
  rewrite Hn. simpl. by rewrite Hi.
Qed.

Lemma fileCheck_in_sync c fe w fuel :
  quiet w → 0 ≤ FdMaxSize c → in_sync fe w →
  ∃ fe' w',
    fileCheck (S (S (S fuel))) c fe w = Some (None, fe', w') ∧
    in_sync fe' w' ∧ path fe' = path fe ∧ quiet w' ∧
    content w' (path fe)
    = Some (carried c (default [] (content w (path fe)))).
Proof.
  intros Hq Hmax Hsync.
  destruct (in_sync_content _ _ Hsync) as (b0 & Hb0 & Hl0).
  destruct Hsync as (i & b & Hd & Hn & Hi & Hl).
  rewrite Hb0. simpl. unfold carried. rewrite <- Hl0.
  case_decide as Hover.
  - set (w1 := rollOver c (path fe) (os_Close i w).2).
    assert (moved w w1) as Hm.
    { eapply moved_trans; [apply os_Close_moved|apply rollOver_moved]. }
    assert (quiet w1) as Hq1 by (by eapply moved_quiet).
    assert (names w1 !! path fe = None) as Hgone.
    { apply rollOver_base_gone.
      eapply moved_quiet; [apply os_Close_moved|done]. }
    destruct (reopen_fresh _ _ Hq1 Hgone) as (_ & _ & Hn' & Hi' & Hf' & _).
    eexists _, _. split; [by apply fileCheck_rotate|]. fold w1.
    split; [|split; [done|split]].
    + exists (length (inodes w)), []. simpl.
      rewrite Hn', Hi', (moved_inodes _ _ Hm), lookup_insert_eq.
      by rewrite list_lookup_middle.
    + intros t c0. rewrite Hf'. apply Hq1.
    + unfold content. rewrite Hn', lookup_insert_eq. simpl.
      rewrite Hi'. by rewrite list_lookup_middle.
  - exists fe, w. simpl.
    rewrite (fileCheck_body_under c fe w i) by (done || lia).
    split; [done|]. split; [by exists i, b|]. by repeat split.
Qed.

Lemma ensure_open_in_sync c fe w :
  quiet w → fd fe = None → whole w (path fe) →
  ∃ fe' w',
    fileCheck_body c fe w = Again fe' w' ∧
    in_sync fe' w' ∧ path fe' = path fe ∧ quiet w' ∧
    content w' (path fe) = Some (default [] (content w (path fe))).
Proof.
  intros Hq Hd [Hfree|[b Hb]]; rewrite fileCheck_body_closed by done.
  - destruct (reopen_fresh _ _ Hq Hfree) as (Hs & Ho & Hn & Hi & Hf & _).
    rewrite Ho, Hs. eexists _, _. split; [done|].
    assert (content w (path fe) = None) as ->.
    { unfold content. by rewrite Hfree. }
    split; [|split; [done|split]].
    + exists (length (inodes w)), []. simpl.
      rewrite Hn, Hi, lookup_insert_eq. by rewrite list_lookup_middle.
    + intros t c0. rewrite Hf. apply Hq.
    + unfold content. rewrite Hn, lookup_insert_eq. simpl.
      rewrite Hi. by rewrite list_lookup_middle.
  - unfold content in Hb.
    destruct (names w !! path fe) as [i|] eqn:Hn0; [|done]. simpl in Hb.
    destruct (reopen_existing _ _ i Hq Hn0) as (Hs & Ho & Hn & Hi & Hf & _).
    rewrite Ho, Hs. eexists _, _. split; [done|].
    assert (content w (path fe) = Some b) as ->.
    { unfold content. rewrite Hn0. done. }
    split; [|split; [done|split]].
    + exists i, b. simpl. rewrite Hn, Hi. unfold fsize. rewrite Hb.
      by repeat split.
    + intros t c0. rewrite Hf. apply Hq.
    + unfold content. rewrite Hn, Hn0. simpl. by rewrite Hi.
Qed.

(** A handle that is closed on a whole name, or open and in step with its
    file: the check returns nil in four turns at most. *)
Lemma fileCheck_ready c fe w fuel :
  quiet w → 0 ≤ FdMaxSize c →
  (fd fe = None ∧ whole w (path fe)) ∨ in_sync fe w →
  ∃ fe' w',
    fileCheck (S (S (S (S fuel)))) c fe w = Some (None, fe', w') ∧
    in_sync fe' w' ∧ path fe' = path fe ∧ quiet w' ∧
    content w' (path fe)
    = Some (carried c (default [] (content w (path fe)))).
Proof.
  intros Hq Hmax [[Hd Hw]|Hsync].
  - destruct (ensure_open_in_sync c fe w Hq Hd Hw)
      as (fe1 & w1 & Hb & Hs1 & Hp1 & Hq1 & Hc1).
    destruct (fileCheck_in_sync c fe1 w1 fuel Hq1 Hmax Hs1)
      as (fe2 & w2 & Hrun & Hs2 & Hp2 & Hq2 & Hc2).
    exists fe2, w2.
    change (fileCheck (S (S (S (S fuel)))) c fe w)
      with (match fileCheck_body c fe w with
            | Again fe w => fileCheck (S (S (S fuel))) c fe w
            | Break fe w => Some (None, fe, w)
            | Return err fe w => Some (Some err, fe, w)
            end).
    rewrite Hb. split; [done|]. split; [done|]. split; [congruence|].
    split; [done|]. rewrite Hp1, Hc1 in Hc2. done.
  - by apply fileCheck_in_sync.
Qed.

Lemma lookup_handle_content hook entry w fe w0 :
  lookup_handle hook entry w = Some (fe, w0) →
  (quiet w → quiet w0) ∧
  (∀ p, content w0 p = content w p) ∧
  (∀ p, whole w p → whole w0 p) ∧
  (∀ fe1, in_sync fe1 w → in_sync fe1 w0).
Proof.
  intros Hl. destruct (lookup_handle_files _ _ _ _ _ Hl) as (Hn & Hi & _ & Hf).
  assert (∀ p, content w0 p = content w p) as Hc.
  { intros p. unfold content. by rewrite Hn, Hi. }
  split; [|split; [done|split]].
  - intros Hq t c. rewrite Hf. apply Hq.
  - intros p [H|H]; [left; by rewrite Hn|right; by rewrite Hc].
  - intros fe1 (i & b & H1 & H2 & H3 & H4). exists i, b.
    by rewrite Hn, Hi.
Qed.

(** One [Fire] in file mode in a quiet world, whatever the formatter
    says. *)
Lemma Fire_quiet_step hook entry w fe w0 fuel :
  quiet w → 0 ≤ FdMaxSize hook →
  sink_config hook = false → path_config hook = true →
  lookup_handle hook entry w = Some (fe, w0) →
  (fd fe = None ∧ whole w (path fe)) ∨ in_sync fe w →
  let kept_bytes := carried hook (default [] (content w (path fe))) in
  let new_bytes :=
    match Format (formatter hook) entry with Ok msg => msg | Err _ => [] end in
  ∃ fe' w',
    Fire (S (S (S (S fuel)))) hook entry w =
      Returned (err_of (Format (formatter hook) entry),
                set_fls (<[EntryLevel entry := fe']> (fls hook)) hook, w') ∧
    path fe' = path fe ∧ quiet w' ∧
    content w' (path fe) = Some (kept_bytes ++ new_bytes) ∧
    ln fe' =
      match Format (formatter hook) entry with
      | Ok msg =>
        int64 (Z.of_nat (length kept_bytes) + Z.of_nat (length msg))
      | Err _ => Z.of_nat (length kept_bytes)
      end ∧
    (FdMaxSize hook + Z.of_nat (length new_bytes) < 2 ^ 63 →
     in_sync fe' w') ∧
    (∀ msg, Format (formatter hook) entry = Ok msg →
       last (trace w') =
         Some (Ev (FileWrite (default 0%nat (fd fe')) msg) None
                  (Z.of_nat (length msg)))) ∧
    (∀ e, Format (formatter hook) entry = Err e →
       last (trace w') = Some (Ev (Println e) None 0)).
Proof.
  intros Hq Hmax Hs Hp Hl Hstate kept_bytes new_bytes.
  destruct (lookup_handle_content _ _ _ _ _ Hl) as (Hq0 & Hc0 & Hw0 & Hs0).
  assert ((fd fe = None ∧ whole w0 (path fe)) ∨ in_sync fe w0) as Hstate0.
  { destruct Hstate as [[Hd Hw]|Hsync]; [left|right]; auto. }
  destruct (fileCheck_ready hook fe w0 fuel (Hq0 Hq) Hmax Hstate0)
    as (fe2 & w2 & Hrun & Hsync2 & Hp2 & Hq2 & Hc2).
  rewrite Hc0 in Hc2. fold kept_bytes in Hc2.
  rewrite Fire_file by done. rewrite Hp, fileWrite_unfold, Hl, Hrun.
  unfold new_bytes.
  destruct (Format (formatter hook) entry) as [msg|e]; simpl.
  - destruct Hsync2 as (i & b & Hd2 & Hn2 & Hi2 & Hl2).
    assert (b = kept_bytes) as ->.
    { unfold content in Hc2. rewrite <- Hp2, Hn2 in Hc2. simpl in Hc2.
      congruence. }
    rewrite Hd2, os_FileWrite_quiet by done. simpl.
    eexists _, _. split; [done|]. simpl.
    split; [done|]. split; [done|]. split.
    { unfold content. simpl. rewrite <- Hp2, Hn2. simpl.
      rewrite list_lookup_alter_eq, Hi2. done. }
    split; [by rewrite Hl2|]. split; [|split].
    + intros Hrange. exists i, (kept_bytes ++ msg). simpl.
      rewrite Hn2, list_lookup_alter_eq, Hi2. repeat split; try done.
      rewrite Hl2, length_app, Nat2Z.inj_add.
      apply int64_small.
      assert (Z.of_nat (length kept_bytes) ≤ FdMaxSize hook); [|lia].
      unfold kept_bytes, carried. case_decide; simpl; lia.
    + intros msg' [= <-]. unfold record. simpl. rewrite Hd2. simpl.
      by rewrite last_snoc.
    + done.
  - eexists _, _. split; [done|]. split; [done|]. split; [done|].
    rewrite app_nil_r. split; [done|].
    destruct Hsync2 as (i & b & Hd2 & Hn2 & Hi2 & Hl2).
    assert (b = kept_bytes) as ->.
    { unfold content in Hc2. rewrite <- Hp2, Hn2 in Hc2. simpl in Hc2.
      congruence. }
    split; [done|]. split; [|split].
    + intros _. by exists i, kept_bytes.
    + done.
    + intros e' [= <-]. unfold log_Println, record. simpl.
      by rewrite last_snoc.
Qed.

(** X10.  In file mode in a quiet world, for a handle that is new, closed, or
    open and in step with its file, a [Fire] whose record is rendered as
    [msg] returns nil and leaves the base file holding what the check
    carried over (nothing when the file was over the limit, all of it
    otherwise) followed by [msg]; the write is the last call. *)
Theorem Fire_appends_record hook entry w fe w0 msg fuel :
  quiet w → 0 ≤ FdMaxSize hook →
  sink_config hook = false → path_config hook = true →
  lookup_handle hook entry w = Some (fe, w0) →
  (fd fe = None ∧ whole w (path fe)) ∨ in_sync fe w →
  Format (formatter hook) entry = Ok msg →
  ∃ hook' fe' w',
    Fire (S (S (S (S fuel)))) hook entry w = Returned (None, hook', w') ∧
    fls hook' !! EntryLevel entry = Some fe' ∧ path fe' = path fe ∧
    content w' (path fe)
    = Some (carried hook (default [] (content w (path fe))) ++ msg) ∧
    last (trace w') =
      Some (Ev (FileWrite (default 0%nat (fd fe')) msg) None
               (Z.of_nat (length msg))).
Proof.
  intros Hq Hmax Hs Hp Hl Hstate Hfmt.
  destruct (Fire_quiet_step hook entry w fe w0 fuel Hq Hmax Hs Hp Hl Hstate)
    as (fe' & w' & Hfire & Hpath & _ & Hc & _ & _ & Hlast & _).
  rewrite Hfmt in Hfire, Hc. simpl in Hfire.
  eexists _, fe', w'. split; [exact Hfire|]. simpl.
  rewrite lookup_insert_eq. split; [done|]. split; [done|].
  split; [done|]. by apply Hlast.
Qed.

Lemma Fire_appends_record_witness :
  ∃ hook' fe' w',
    Fire 4 (small_hook 10 2) (info "BB") one_file_world
    = Returned (None, hook', w') ∧
    fls hook' !! InfoLevel = Some fe' ∧ path fe' = "app.log" ∧
    content w' "app.log"
    = Some (carried (small_hook 10 2)
              (default [] (content one_file_world "app.log")) ++
            bytes_of "BB") ∧
    last (trace w') =
      Some (Ev (FileWrite (default 0%nat (fd fe')) (bytes_of "BB")) None 2).
Proof.
  apply (Fire_appends_record (small_hook 10 2) (info "BB") one_file_world
           (closed_handle "app.log")
           (os_MkdirAllDir "app.log" one_file_world).2 (bytes_of "BB") 0%nat).
  - intros t c. reflexivity.
  - simpl. lia.
  - reflexivity.
  - reflexivity.
  - reflexivity.
  - left. split; [reflexivity|]. right. by eexists.
  - reflexivity.
Defined.

(** X11.  A record that the formatter refuses: [Fire] returns the error of the
    formatter.  In sink mode nothing else happens but the log line.  In file
    mode in a quiet world the check has run all the same: the file exists
    afterwards, rolled over if it was over the limit, and nothing was
    appended to it. *)
Theorem format_error_is_returned hook entry w e fuel :
  Format (formatter hook) entry = Err e →
  (sink_config hook = true →
   is_Some (map_get (writers hook) (EntryLevel entry)) ∨
   hasDefaultWriter hook = true →
   Fire fuel hook entry w = Returned (Some e, hook, log_Println e w)) ∧
  (∀ fe w0,
     quiet w → 0 ≤ FdMaxSize hook →
     sink_config hook = false → path_config hook = true →
     lookup_handle hook entry w = Some (fe, w0) →
     (fd fe = None ∧ whole w (path fe)) ∨ in_sync fe w →
     ∃ hook' w',
       Fire (S (S (S (S fuel)))) hook entry w = Returned (Some e, hook', w') ∧
       content w' (path fe)
       = Some (carried hook (default [] (content w (path fe)))) ∧
       last (trace w') = Some (Ev (Println e) None 0)).
Proof.
  intros Hfmt. split.
  - intros Hs Hdest. rewrite Fire_sink by done. unfold ioWrite.
    destruct (map_get (writers hook) (EntryLevel entry)) as [wr|].
    + by rewrite Hfmt.
    + destruct Hdest as [[? ?]| ->]; [done|]. by rewrite Hfmt.
  - intros fe w0 Hq Hmax Hs Hp Hl Hstate.
    destruct (Fire_quiet_step hook entry w fe w0 fuel Hq Hmax Hs Hp Hl Hstate)
      as (fe' & w' & Hfire & _ & _ & Hc & _ & _ & _ & Hlast).
    rewrite Hfmt in Hfire, Hc. simpl in Hfire. rewrite app_nil_r in Hc.
    eexists _, w'. split; [exact Hfire|]. split; [done|]. by apply Hlast.
Qed.

Lemma format_error_is_returned_witness :
  Fire 0 (with_formatter failing error_writer_hook)
    {| EntryLevel := ErrorLevel; Message := "BB" |} empty_world
  = Returned (Some ErrFormat, with_formatter failing error_writer_hook,
              log_Println ErrFormat empty_world) ∧
  ∃ hook' w',
    Fire 4 (with_formatter failing (small_hook 10 2)) (info "BB")
      one_file_world
    = Returned (Some ErrFormat, hook', w') ∧
    content w' "app.log"
    = Some (carried (with_formatter failing (small_hook 10 2))
              (default [] (content one_file_world "app.log"))) ∧
    last (trace w') = Some (Ev (Println ErrFormat) None 0).
Proof.
  destruct (format_error_is_returned
              (with_formatter failing error_writer_hook)
              {| EntryLevel := ErrorLevel; Message := "BB" |} empty_world
              ErrFormat 0%nat eq_refl) as [Hsink _].
  destruct (format_error_is_returned
              (with_formatter failing (small_hook 10 2)) (info "BB")
              one_file_world ErrFormat 0%nat eq_refl) as [_ Hfile].
  split.
  - apply Hsink.
    + reflexivity.
    + left. by eexists.
  - apply (Hfile (closed_handle "app.log")
             (os_MkdirAllDir "app.log" one_file_world).2).
    + intros t c. reflexivity.
    + simpl. lia.
    + reflexivity.
    + reflexivity.
    + reflexivity.
    + left. split; [reflexivity|]. right. by eexists.
Defined.

(** ** A sequence of writes in a quiet world *)

Lemma ready_lookup hook entry w :
  ready hook (EntryLevel entry) w →
  ∃ fe w0,
    lookup_handle hook entry w = Some (fe, w0) ∧
    handle_path hook (EntryLevel entry) = Some (path fe) ∧
    ((fd fe = None ∧ whole w (path fe)) ∨ in_sync fe w).
Proof.
  intros (_ & _ & _ & _ & Hst). unfold lookup_handle, handle_path.
  destruct (fls hook !! EntryLevel entry) as [fe|].
  - by exists fe, w.
  - destruct Hst as (p & Hp & Hw). rewrite Hp. unfold resolve_path in Hp.
    destruct (map_get (paths hook) (EntryLevel entry)) as [p'|].
    + simplify_eq. destruct (os_MkdirAllDir p w) as [e1 w1].
      eexists _, _. split; [done|]. split; [done|]. by left.
    + destruct (hasDefaultPath hook); [|done]. simplify_eq.
      destruct (os_MkdirAllDir (defaultPath hook) w) as [e1 w1].
      eexists _, _. split; [done|]. split; [done|]. by left.
Qed.

Lemma fireAll_quiet_steps level p fuel es :
  ∀ hook w,
    ready hook level w → handle_path hook level = Some p →
    Forall (λ entry,
              EntryLevel entry = level ∧
              FdMaxSize hook + Z.of_nat (length (rendered hook entry))
              < 2 ^ 63) es →
    ∃ hook' w',
      fireAll (S (S (S (S fuel)))) hook es w =
        Returned (map (λ entry, err_of (Format (formatter hook) entry)) es,
                  hook', w') ∧
      ready hook' level w' ∧ handle_path hook' level = Some p ∧
      default [] (content w' p)
      = base_after hook (default [] (content w p)) es ∧
      (es ≠ [] ∨ (∃ fe, fls hook !! level = Some fe ∧ in_sync fe w) →
       ∃ fe', fls hook' !! level = Some fe' ∧ in_sync fe' w').
Proof.
  induction es as [|entry es IH]; intros hook w Hready Hpath Hes.
  - exists hook, w. split; [done|]. split; [done|]. split; [done|].
    split; [done|]. intros [H|H]; [done|exact H].
  - apply Forall_cons in Hes as [[Hlv Hrange] Hes]. subst level.
    destruct (ready_lookup hook entry w Hready) as (fe & w0 & Hl & Hhp & Hst).
    assert (path fe = p) as Hfe by congruence.
    destruct Hready as (Hq & Hmax & Hs & Hp & _).
    destruct (Fire_quiet_step hook entry w fe w0 fuel Hq Hmax Hs Hp Hl Hst)
      as (fe' & w1 & Hfire & Hp' & Hq1 & Hc1 & _ & Hsync & _).
    specialize (Hsync Hrange).
    set (hook1 := set_fls (<[EntryLevel entry := fe']> (fls hook)) hook) in *.
    assert (fls hook1 !! EntryLevel entry = Some fe') as Hfls1.
    { unfold hook1. simpl. by rewrite lookup_insert_eq. }
    assert (ready hook1 (EntryLevel entry) w1) as Hready1.
    { split; [done|]. split; [done|]. split; [done|]. split; [done|].
      rewrite Hfls1. by right. }
    assert (handle_path hook1 (EntryLevel entry) = Some p) as Hpath1.
    { unfold handle_path. rewrite Hfls1. congruence. }
    destruct (IH hook1 w1 Hready1 Hpath1 Hes)
      as (hook2 & w2 & Hall & Hready2 & Hpath2 & Hc2 & Hsync2).
    exists hook2, w2. split; [|split; [done|split; [done|split]]].
    + change (fireAll (S (S (S (S fuel)))) hook (entry :: es) w)
        with (match Fire (S (S (S (S fuel)))) hook entry w with
              | Returned (err, hook, w) =>
                match fireAll (S (S (S (S fuel)))) hook es w with
                | Returned (errs, hook, w) => Returned (err :: errs, hook, w)
                | Panicked => Panicked
                | NoFuel => NoFuel
                end
              | Panicked => Panicked
              | NoFuel => NoFuel
              end).
      rewrite Hfire, Hall. done.
    + rewrite Hc2. rewrite <- Hfe, Hc1. done.
    + intros _. apply Hsync2. right. by exists fe'.
Qed.

(** X12.  A sequence of records for one level, in file mode in a quiet world,
    starting from a handle that is new, closed, or in step with its file.
    Every [Fire] returns, with the error of the formatter or nil.  The base
    file ends up as [base_after] says: before each record a content over the
    limit is dropped from it (rolled over), then the rendered bytes are
    appended.  The handle is open on that file and its tracked length is the
    length of the file. *)
Theorem fireAll_base_file hook level p w es fuel :
  ready hook level w → handle_path hook level = Some p →
  Forall (λ entry,
            EntryLevel entry = level ∧
            FdMaxSize hook + Z.of_nat (length (rendered hook entry))
            < 2 ^ 63) es →
  es ≠ [] →
  ∃ hook' w' fe',
    fireAll (S (S (S (S fuel)))) hook es w =
      Returned (map (λ entry, err_of (Format (formatter hook) entry)) es,
                hook', w') ∧
    content w' p = Some (base_after hook (default [] (content w p)) es) ∧
    fls hook' !! level = Some fe' ∧ path fe' = p ∧ is_Some (fd fe') ∧
    ln fe'
    = Z.of_nat (length (base_after hook (default [] (content w p)) es)).
Proof.
  intros Hready Hpath Hes Hne.
  destruct (fireAll_quiet_steps level p fuel es hook w Hready Hpath Hes)
    as (hook' & w' & Hall & _ & Hpath' & Hc & Hsync).
  destruct Hsync as (fe' & Hfls & Hs); [by left|].
  assert (path fe' = p) as Hp.
  { unfold handle_path in Hpath'. rewrite Hfls in Hpath'. congruence. }
  destruct (in_sync_content _ _ Hs) as (b & Hb & Hl).
  rewrite Hp in Hb. rewrite Hb in Hc. simpl in Hc. subst b.
  exists hook', w', fe'. repeat split; try done.
  destruct Hs as (i & ? & Hd & _). by rewrite Hd.
Qed.

Lemma fireAll_base_file_witness :
  ∃ hook' w' fe',
    fireAll 4 (small_hook 2 4) [info "AAA"; info "BB"; info "C"] empty_world
    = Returned ([None; None; None], hook', w') ∧
    content w' "app.log" = Some (bytes_of "C") ∧
    fls hook' !! InfoLevel = Some fe' ∧ path fe' = "app.log" ∧
    is_Some (fd fe') ∧ ln fe' = 1.
Proof.
  apply (fireAll_base_file (small_hook 2 4) InfoLevel "app.log" empty_world
           [info "AAA"; info "BB"; info "C"] 0%nat).
  - split; [intros t c; reflexivity|]. split; [simpl; lia|].
    split; [reflexivity|]. split; [reflexivity|].
    exists "app.log". split; [reflexivity|]. by left.
  - reflexivity.
  - repeat constructor; simpl; lia.
  - discriminate.
Defined.

(** ** Writers *)

Lemma ioWrite_delivers hook entry w wr msg :
  resolve_writer hook (EntryLevel entry) = Some wr →
  Format (formatter hook) entry = Ok msg →
  ioWrite hook entry w =
    Returned (faults w (tick w) (WriterWrite wr msg),
              (os_WriterWrite wr msg w).2).
Proof.
  unfold resolve_writer, ioWrite. intros Hwr Hfmt.
  destruct (map_get (writers hook) (EntryLevel entry)) as [wr'|].
  - simplify_eq. rewrite Hfmt. unfold os_WriterWrite.
    by destruct (faults w (tick w) (WriterWrite wr msg)).
  - destruct (hasDefaultWriter hook); [|done]. rewrite Hwr, Hfmt.
    unfold os_WriterWrite.
    by destruct (faults w (tick w) (WriterWrite wr msg)).
Qed.

Lemma os_WriterWrite_sinks wr msg w :
  sinks (os_WriterWrite wr msg w).2 !! wr =
    Some (default [] (sinks w !! wr) ++
          match faults w (tick w) (WriterWrite wr msg) with
          | None => msg
          | Some _ => take (short w (tick w)) msg
          end) ∧
  (∀ wr', wr' ≠ wr →
          sinks (os_WriterWrite wr msg w).2 !! wr' = sinks w !! wr') ∧
  names (os_WriterWrite wr msg w).2 = names w ∧
  inodes (os_WriterWrite wr msg w).2 = inodes w.
Proof.
  unfold os_WriterWrite. case_match; simpl.
  - rewrite lookup_insert_eq. repeat split; try done.
    intros wr' Hne. by rewrite lookup_insert_ne.
  - rewrite lookup_insert_eq. repeat split; try done.
    intros wr' Hne. by rewrite lookup_insert_ne.
Qed.

(** X13.  In sink mode a record that is rendered as [msg] goes to the writer of
    its level, or to the default writer when the level has none, and to no
    other; [Fire] returns what the writer returned, and when the writer
    failed only the part it accepted has arrived.  A writer of the map wins
    over the default writer. *)
Theorem Fire_sink_delivers hook entry w wr msg fuel :
  sink_config hook = true →
  resolve_writer hook (EntryLevel entry) = Some wr →
  Format (formatter hook) entry = Ok msg →
  ∃ w',
    Fire fuel hook entry w =
      Returned (faults w (tick w) (WriterWrite wr msg), hook, w') ∧
    sinks w' !! wr =
      Some (default [] (sinks w !! wr) ++
            match faults w (tick w) (WriterWrite wr msg) with
            | None => msg
            | Some _ => take (short w (tick w)) msg
            end) ∧
    (∀ wr', wr' ≠ wr → sinks w' !! wr' = sinks w !! wr') ∧
    (∀ wr0, map_get (writers hook) (EntryLevel entry) = Some wr0 →
            wr = wr0).
Proof.
  intros Hs Hwr Hfmt. rewrite Fire_sink by done.
  rewrite (ioWrite_delivers hook entry w wr msg Hwr Hfmt).
  destruct (os_WriterWrite_sinks wr msg w) as (H1 & H2 & _).
  eexists. split; [done|]. split; [done|]. split; [done|].
  intros wr0 Hwr0. unfold resolve_writer in Hwr. rewrite Hwr0 in Hwr.
  congruence.
Qed.

Lemma Fire_sink_delivers_witness :
  ∃ w',
    Fire 0 (SetDefaultWriter error_writer_hook 9) (info "BB") disk_full_world
    = Returned (faults disk_full_world (tick disk_full_world)
                  (WriterWrite 9 (bytes_of "BB")),
                SetDefaultWriter error_writer_hook 9, w') ∧
    sinks w' !! 9%nat =
      Some (default [] (sinks disk_full_world !! 9%nat) ++
            match faults disk_full_world (tick disk_full_world)
                    (WriterWrite 9 (bytes_of "BB")) with
            | None => bytes_of "BB"
            | Some _ =>
              take (short disk_full_world (tick disk_full_world))
                (bytes_of "BB")
            end) ∧
    (∀ wr', wr' ≠ 9%nat → sinks w' !! wr' = sinks disk_full_world !! wr') ∧
    (∀ wr0, map_get (writers (SetDefaultWriter error_writer_hook 9))
              (EntryLevel (info "BB")) = Some wr0 → 9%nat = wr0).
Proof.
  apply (Fire_sink_delivers (SetDefaultWriter error_writer_hook 9)
           (info "BB") disk_full_world 9%nat (bytes_of "BB") 0%nat).
  - reflexivity.
  - reflexivity.
  - reflexivity.
Defined.

(** ** Hooks for a single destination *)


Lemma NewLfsHook_shape fmt0 output f maxsz h :
  NewLfsHook fmt0 output f maxsz = Returned h →
  0 < FdMaxSize h ∧ fls h = ∅ ∧
  match output with
  | OutString p =>
    paths h = None ∧ writers h = None ∧ hasDefaultWriter h = false ∧
    hasDefaultPath h = true ∧ defaultPath h = p
  | OutWriter wr =>
    writers h = None ∧ hasDefaultWriter h = true ∧
    defaultWriter h = Some wr
  | _ => True
  end.
Proof.
  unfold NewLfsHook, SetFormatter. intros Hnew.
  destruct (maxsz !! 0%nat) as [m0|]; destruct (maxsz !! 1%nat) as [m1|];
    repeat match goal with
           | H : context [0 <? ?m] |- _ =>
             destruct (Z.ltb_spec 0 m); try lia
           end;
    destruct f as [g|]; try destruct (isText g); try destruct (isNil g);
    destruct output; simplify_eq/=; repeat split; try done; lia.
Qed.

(** * Whole writes *)

(** ** Whether the base file was renamed *)

Lemma rolled_app p t1 t2 : rolled p (t1 ++ t2) = rolled p t1 || rolled p t2.
Proof. unfold rolled. apply existsb_app. Qed.

Lemma aside_refl p w : aside p w w.
Proof. exists []. by rewrite app_nil_r. Qed.

Lemma aside_trans p w1 w2 w3 : aside p w1 w2 → aside p w2 w3 → aside p w1 w3.
Proof.
  intros (t1 & H1 & F1) (t2 & H2 & F2). exists (t1 ++ t2).
  rewrite H2, H1, app_assoc. split; [done|].
  by rewrite rolled_app, F1, F2.
Qed.

Lemma aside_one p ev w w' :
  trace w' = trace w ++ [ev] → renamed_base p ev = false → aside p w w'.
Proof.
  intros Ht Hev. exists [ev]. split; [done|]. unfold rolled. simpl.
  by rewrite Hev.
Qed.

Lemma os_Stat_aside p name w : aside p w (os_Stat name w).2.
Proof.
  unfold os_Stat. repeat case_match; simpl;
    (eapply aside_one; [reflexivity|done]).
Qed.

Lemma os_RemoveAll_aside p a w : aside p w (os_RemoveAll a w).2.
Proof.
  unfold os_RemoveAll. repeat case_match; simpl;
    (eapply aside_one; [reflexivity|done]).
Qed.

Lemma os_Rename_aside p a b w : a ≠ p → aside p w (os_Rename a b w).2.
Proof.
  intros Ha. unfold os_Rename. repeat case_match; simpl;
    (eapply aside_one; [reflexivity|]); unfold renamed_base; simpl;
    try done; by rewrite bool_decide_false.
Qed.

Lemma fileBakLen_loop_aside c p k :
  ∀ i ln w, aside p w (fileBakLen_loop k c p i ln w).2.
Proof.
  induction k as [|k IH]; intros i ln w; simpl; [apply aside_refl|].
  destruct (i <=? FdMaxLen c); [|apply aside_refl].
  pose proof (os_Stat_aside p (bakName p i) w) as Hk.
  destruct (os_Stat (bakName p i) w) as [r w1]. simpl in Hk.
  destruct (negb (IsNotExist (err_of r))); [|done].
  eapply aside_trans; [exact Hk|apply IH].
Qed.

Lemma fileBakMove_loop_aside c p k :
  ∀ i w, aside p w (fileBakMove_loop k c p i w).
Proof.
  induction k as [|k IH]; intros i w; simpl; [apply aside_refl|].
  destruct (i <? FdMaxLen c); [|apply aside_refl].
  pose proof (os_Rename_aside p (bakName p (i + 1)) (bakName p i) w
                (bakName_ne p (i + 1))) as Hk.
  destruct (os_Rename (bakName p (i + 1)) (bakName p i) w) as [r w1].
  eapply aside_trans; [exact Hk|apply IH].
Qed.

Lemma os_Rename_quiet_full a b w :
  quiet w →
  (os_Rename a b w).2 =
    match names w !! a with
    | Some i =>
      record (Rename a b) None 0
        (set_names (<[b := i]> (delete a (names w))) w)
    | None => record (Rename a b) (Some ErrNotExist) 0 w
    end.
Proof. intros Hq. unfold os_Rename. rewrite Hq. by case_match. Qed.

